(** * A shallow embedding of [shunting_yard.c]

    The program reads one line holding an arithmetic expression, turns it into
    tokens ([scanner_execute]) and folds the tokens into one [double] with two
    stacks ([eval_by_shunting_yard]).

    Conventions of the embedding:
    - a C [int] (offsets, counters) is a [Z]; on a source buffer of fewer
      than 2^31 characters no offset or counter leaves the range of [int],
      so no wrap-around is written out;
    - a C [double] is a primitive binary64 [float];
    - the source buffer is a [list ascii]; reading the position just past the
      last character yields the terminating NUL;
    - [exit(code)] after a message on [stderr] is the [Exit] outcome carrying
      the message; allocation is assumed to succeed;
    - a stack array with its counter is a list whose head is the top slot. *)

From Stdlib Require Import List ZArith Lia Bool Ascii String.
From Stdlib Require Import Floats.
Import ListNotations.

Set Implicit Arguments.
Open Scope Z_scope.

(** ** Outcomes of a call: a returned value, or the process exit *)

Inductive Failure : Type :=
| UnexpectedCharacter (c : ascii) (position : Z)
| OperatorsStackOverflowed
| OperatorsStackEmpty
| ValuesStackOverflowed
| ValuesStackEmpty
| InvalidTokenType (from_pos to_pos : Z)
| MismatchedRightParen (position : Z)
| MismatchedLeftParen (position : Z)
| CannotEvaluate.

Definition ERROR_PARSING : Z := 4.
Definition ERROR_EVALUATION : Z := 5.

Definition exit_code (f : Failure) : Z :=
  match f with
  | UnexpectedCharacter _ _ => ERROR_PARSING
  | _ => ERROR_EVALUATION
  end.

Inductive Outcome (A : Type) : Type :=
| Return (a : A)
| Exit (f : Failure).

Arguments Return {A} a.
Arguments Exit {A} f.

Definition bind {A B : Type} (m : Outcome A) (k : A -> Outcome B) : Outcome B :=
  match m with
  | Return a => k a
  | Exit f => Exit f
  end.

Declare Scope outcome_scope.
Delimit Scope outcome_scope with outcome.
Notation "x <- m ;; k" := (bind m (fun x => k))
  (at level 61, m at next level, right associativity) : outcome_scope.
Notation "' p <- m ;; k" := (bind m (fun x => let 'p := x in k))
  (at level 61, p pattern, m at next level, right associativity) : outcome_scope.
Open Scope outcome_scope.

(** ** Tokens *)

Inductive TokenType : Type :=
| TOKEN_UMINUS
| TOKEN_STAR
| TOKEN_SLASH
| TOKEN_PLUS
| TOKEN_MINUS
| TOKEN_NUMBER
| TOKEN_LEFT_PAREN
| TOKEN_RIGHT_PAREN.

Definition TokenType_eqb (a b : TokenType) : bool :=
  match a, b with
  | TOKEN_UMINUS, TOKEN_UMINUS
  | TOKEN_STAR, TOKEN_STAR
  | TOKEN_SLASH, TOKEN_SLASH
  | TOKEN_PLUS, TOKEN_PLUS
  | TOKEN_MINUS, TOKEN_MINUS
  | TOKEN_NUMBER, TOKEN_NUMBER
  | TOKEN_LEFT_PAREN, TOKEN_LEFT_PAREN
  | TOKEN_RIGHT_PAREN, TOKEN_RIGHT_PAREN => true
  | _, _ => false
  end.

Definition TOKEN_TYPE_PRECEDENCE (t : TokenType) : Z :=
  match t with
  | TOKEN_UMINUS => 4
  | TOKEN_STAR => 3
  | TOKEN_SLASH => 3
  | TOKEN_PLUS => 2
  | TOKEN_MINUS => 2
  | TOKEN_NUMBER => 0
  | TOKEN_LEFT_PAREN => 0
  | TOKEN_RIGHT_PAREN => 0
  end.

Record Token : Type := mkToken {
  type : TokenType;
  literal : float;
  start_at : Z;
  end_at : Z
}.

(** [scanner_add_token] leaves the [literal] field of the new token unset; the
    program reads it back for number tokens only, after [scanner_number] has
    stored the parsed value.  The embedding fills the unset field with zero. *)
Definition unset_literal : float := 0%float.

(** ** Characters *)

Definition NUL : ascii := Ascii.zero.
Definition LF : ascii := ascii_of_nat 10.

Definition IS_DIGIT (value : ascii) : bool :=
  (48 <=? nat_of_ascii value)%nat && (nat_of_ascii value <=? 57)%nat.

Definition char_at (source : list ascii) (i : Z) : ascii :=
  if i <? 0 then NUL else nth (Z.to_nat i) source NUL.

(** ** The C library's [atof], for decimal input

    [atof] skips leading white space, reads an optional sign, a run of digits
    with an optional fraction and an optional exponent, and returns the
    binary64 number nearest to the decimal value read (zero when no digit is
    found).  The hexadecimal, infinity and NaN forms are left out: the scanner
    passes a buffer that starts with a decimal digit and holds two characters. *)

Definition c_isspace (c : ascii) : bool :=
  let n := nat_of_ascii c in
  (n =? 32)%nat || ((9 <=? n)%nat && (n <=? 13)%nat).

Definition digit_value (c : ascii) : Z := Z.of_nat (nat_of_ascii c) - 48.

Fixpoint skip_spaces (s : list ascii) : list ascii :=
  match s with
  | c :: s' => if c_isspace c then skip_spaces s' else s
  | [] => []
  end.

(** [read_digits acc s]: the digits at the head of [s] appended to the decimal
    number [acc], how many were read, and what follows them. *)
Fixpoint read_digits (acc : Z) (s : list ascii) : Z * nat * list ascii :=
  match s with
  | c :: s' =>
      if IS_DIGIT c
      then let '(v, n, r) := read_digits (10 * acc + digit_value c) s' in (v, S n, r)
      else (acc, O, s)
  | [] => (acc, O, [])
  end.

Definition read_sign (s : list ascii) : bool * list ascii :=
  match s with
  | "-"%char :: s' => (true, s')
  | "+"%char :: s' => (false, s')
  | _ => (false, s)
  end.

Definition read_exponent (s : list ascii) : Z :=
  match s with
  | c :: s' =>
      if Ascii.eqb c "e" || Ascii.eqb c "E"
      then let '(neg, s'') := read_sign s' in
           let '(v, n, _) := read_digits 0 s'' in
           match n with
           | O => 0
           | S _ => if neg then - v else v
           end
      else 0
  | [] => 0
  end.

(** The binary64 number nearest to [m * 10 ^ e] (ties to even), [m > 0]. *)
Definition nearest_double (neg : bool) (m : positive) (e : Z) : spec_float :=
  match e with
  | Zneg p => SFdiv prec emax (S754_finite neg m 0)
                              (S754_finite false (Pos.pow 10 p) 0)
  | _ => binary_normalize prec emax
           ((if neg then Z.neg m else Z.pos m) * 10 ^ e) 0 false
  end.

Definition atof (nptr : list ascii) : float :=
  let '(neg, s) := read_sign (skip_spaces nptr) in
  let '(int_part, n_int, s) := read_digits 0 s in
  let '(mantissa, n_frac, s) :=
    match s with
    | "."%char :: s' => read_digits int_part s'
    | _ => (int_part, O, s)
    end in
  match n_int, n_frac with
  | O, O => 0%float
  | _, _ =>
      match mantissa with
      | Z.pos m => SF2Prim (nearest_double neg m (read_exponent s - Z.of_nat n_frac))
      | _ => if neg then (-0)%float else 0%float
      end
  end.

(** A character buffer read as a C string: what comes before the first NUL. *)
Fixpoint c_string (buf : list ascii) : list ascii :=
  match buf with
  | c :: buf' => if Ascii.eqb c NUL then [] else c :: c_string buf'
  | [] => []
  end.

(** [memcpy (dest, &source[from], n)]: the [n] characters from offset [from]. *)
Definition memcpy (source : list ascii) (from : Z) (n : Z) : list ascii :=
  map (fun k => char_at source (from + Z.of_nat k)) (seq 0 (Z.to_nat n)).

(** ** The scanner *)

Definition TokenList : Type := list Token.

(** [token_list_add_item]: the new token goes after the [count] stored ones. *)
Definition token_list_add_item (tl : TokenList) (t : Token) : TokenList :=
  tl ++ [t].

Definition count (tl : TokenList) : Z := Z.of_nat (List.length tl).

(** [tl->items[i]] *)
Definition items (tl : TokenList) (i : Z) : option Token :=
  if i <? 0 then None else nth_error tl (Z.to_nat i).

Record Scanner : Type := mkScanner {
  source : list ascii;
  tokens : TokenList;
  start : Z;
  current : Z
}.

Definition scanner_init (source : list ascii) : Scanner :=
  {| source := source; tokens := []; start := 0; current := 0 |}.

Definition scanner_is_at_end (scanner : Scanner) : bool :=
  let c := char_at (source scanner) (current scanner) in
  Ascii.eqb c NUL || Ascii.eqb c LF.

Definition scanner_advance (scanner : Scanner) : ascii * Scanner :=
  let c := char_at (source scanner) (current scanner) in
  (c, {| source := source scanner; tokens := tokens scanner;
         start := start scanner; current := current scanner + 1 |}).

Definition scanner_add_token (scanner : Scanner) (type : TokenType) : Scanner :=
  let token := {| type := type; literal := unset_literal;
                  start_at := start scanner; end_at := current scanner - 1 |} in
  {| source := source scanner;
     tokens := token_list_add_item (tokens scanner) token;
     start := start scanner; current := current scanner |}.

Definition scanner_peek (scanner : Scanner) : ascii :=
  char_at (source scanner) (current scanner).

Definition scanner_peek_next (scanner : Scanner) : ascii :=
  if Ascii.eqb (scanner_peek scanner) NUL then NUL
  else char_at (source scanner) (current scanner + 1).

(** [while (IS_DIGIT(scanner_peek(scanner))) scanner_advance(scanner);]
    The loop walks the characters from [current] on, which are [rest]; past the
    last of them it peeks the NUL, which is no digit. *)
Fixpoint advance_while_digit (rest : list ascii) (scanner : Scanner) : Scanner :=
  match rest with
  | _ :: rest' =>
      if IS_DIGIT (scanner_peek scanner)
      then advance_while_digit rest' (snd (scanner_advance scanner))
      else scanner
  | [] => scanner
  end.

Definition unread (scanner : Scanner) : list ascii :=
  skipn (Z.to_nat (current scanner)) (source scanner).

(** [token->literal = literal] on the last stored token. *)
Definition set_last_literal (tl : TokenList) (literal : float) : TokenList :=
  match rev tl with
  | token :: before =>
      rev before ++ [{| type := type token; literal := literal;
                        start_at := start_at token; end_at := end_at token |}]
  | [] => []
  end.

Definition scanner_number (scanner : Scanner) : Scanner :=
  let scanner := advance_while_digit (unread scanner) scanner in
  let scanner :=
    if Ascii.eqb (scanner_peek scanner) "." && IS_DIGIT (scanner_peek_next scanner)
    then let scanner := snd (scanner_advance scanner) in
         advance_while_digit (unread scanner) scanner
    else scanner in
  let scanner := scanner_add_token scanner TOKEN_NUMBER in
  match items (tokens scanner) (count (tokens scanner) - 1) with
  | Some token =>
      let start_at := start_at token in
      let end_at := start_at + 1 in
      let length := end_at - start_at + 2 in
      let liter_as_str := memcpy (source scanner) start_at (length - 1) ++ [NUL] in
      let literal := atof (c_string liter_as_str) in
      {| source := source scanner;
         tokens := set_last_literal (tokens scanner) literal;
         start := start scanner; current := current scanner |}
  | None => scanner
  end.

Definition last_type (tl : TokenList) : option TokenType :=
  option_map type (items tl (count tl - 1)).

(** The [switch (c)] of [scanner_scan_token], one [case] after the other. *)
Definition scanner_scan_token (scanner : Scanner) : Outcome Scanner :=
  let '(c, scanner) := scanner_advance scanner in
  if Ascii.eqb c "+" then Return (scanner_add_token scanner TOKEN_PLUS)
  else if Ascii.eqb c "-" then
    let tokens := tokens scanner in
    if (count tokens =? 0)
       || (match last_type tokens with
           | Some t => negb (TokenType_eqb t TOKEN_NUMBER)
                       && negb (TokenType_eqb t TOKEN_RIGHT_PAREN)
           | None => false
           end)
    then Return (scanner_add_token scanner TOKEN_UMINUS)
    else Return (scanner_add_token scanner TOKEN_MINUS)
  else if Ascii.eqb c "*" then Return (scanner_add_token scanner TOKEN_STAR)
  else if Ascii.eqb c "/" then Return (scanner_add_token scanner TOKEN_SLASH)
  else if Ascii.eqb c "(" then Return (scanner_add_token scanner TOKEN_LEFT_PAREN)
  else if Ascii.eqb c ")" then Return (scanner_add_token scanner TOKEN_RIGHT_PAREN)
  else if Ascii.eqb c " " then Return scanner
  else if IS_DIGIT c then Return (scanner_number scanner)
  else Exit (UnexpectedCharacter c (current scanner - 1)).

Definition set_start (scanner : Scanner) : Scanner :=
  {| source := source scanner; tokens := tokens scanner;
     start := current scanner; current := current scanner |}.

(** The loop of [scanner_execute].  Every round reads at least one character,
    so [fuel] rounds suffice once [fuel] exceeds the number of unread
    characters; [None] stands for a loop cut short by too little fuel. *)
Fixpoint scanner_loop (fuel : nat) (scanner : Scanner) : option (Outcome Scanner) :=
  match fuel with
  | O => None
  | S fuel' =>
      if scanner_is_at_end scanner then Some (Return scanner)
      else match scanner_scan_token (set_start scanner) with
           | Return scanner' => scanner_loop fuel' scanner'
           | Exit f => Some (Exit f)
           end
  end.

Definition scanner_execute (scanner : Scanner) : option (Outcome TokenList) :=
  match scanner_loop (S (List.length (unread scanner))) scanner with
  | Some (Return scanner') => Some (Return (tokens scanner'))
  | Some (Exit f) => Some (Exit f)
  | None => None
  end.

(** ** The two stacks of the evaluator

    [shy_operators] and [shy_values] are global arrays with a counter each,
    both zero when the program starts.  A stack is embedded as the list of its
    used slots, the top slot first; its counter is the length of the list. *)

Definition STACK_SIZE_SHY_OPERATORS : Z := 1024.
Definition STACK_SIZE_SHY_VALUES : Z := 1024.

Definition shy_count {A : Type} (stack : list A) : Z := Z.of_nat (List.length stack).

Definition push_operator (token : Token) (shy_operators : list Token)
  : Outcome (list Token) :=
  if shy_count shy_operators >=? STACK_SIZE_SHY_OPERATORS
  then Exit OperatorsStackOverflowed
  else Return (token :: shy_operators).

Definition peek_operator (shy_operators : list Token) : Outcome Token :=
  match shy_operators with
  | [] => Exit OperatorsStackEmpty
  | token :: _ => Return token
  end.

Definition pop_operator (shy_operators : list Token) : Outcome (Token * list Token) :=
  token <- peek_operator shy_operators ;;
  Return (token, tl shy_operators).

Definition push_value (value : float) (shy_values : list float)
  : Outcome (list float) :=
  if shy_count shy_values >=? STACK_SIZE_SHY_VALUES
  then Exit ValuesStackOverflowed
  else Return (value :: shy_values).

Definition pop_value (shy_values : list float) : Outcome (float * list float) :=
  match shy_values with
  | [] => Exit ValuesStackEmpty
  | value :: below => Return (value, below)
  end.

Definition evaluate (operator : Token) (shy_values : list float)
  : Outcome (float * list float) :=
  '(operand, shy_values) <- pop_value shy_values ;;
  match type operator with
  | TOKEN_PLUS =>
      '(lhs, shy_values) <- pop_value shy_values ;;
      Return ((lhs + operand)%float, shy_values)
  | TOKEN_MINUS =>
      '(lhs, shy_values) <- pop_value shy_values ;;
      Return ((lhs - operand)%float, shy_values)
  | TOKEN_UMINUS => Return ((- operand)%float, shy_values)
  | TOKEN_STAR =>
      '(lhs, shy_values) <- pop_value shy_values ;;
      Return ((lhs * operand)%float, shy_values)
  | TOKEN_SLASH =>
      '(lhs, shy_values) <- pop_value shy_values ;;
      Return ((lhs / operand)%float, shy_values)
  | _ => Exit (InvalidTokenType (start_at operator) (end_at operator))
  end.

(** [push_value(evaluate(pop_operator()))], with the operator already popped. *)
Definition reduce (operator : Token) (shy_values : list float)
  : Outcome (list float) :=
  '(value, shy_values) <- evaluate operator shy_values ;;
  push_value value shy_values.

(** The loop run for an operator token of the given precedence.  Each round
    pops one operator, so the loop is a recursion on the operator stack: the
    empty list is [shy_operators_count > 0] failing, and the head of the list
    is what [peek_operator()] and [pop_operator()] return. *)
Fixpoint reduce_while_binding (precedence : Z)
    (shy_operators : list Token) (shy_values : list float)
  : Outcome (list Token * list float) :=
  match shy_operators with
  | [] => Return ([], shy_values)
  | top :: below =>
      if negb (TokenType_eqb (type top) TOKEN_LEFT_PAREN)
         && (TOKEN_TYPE_PRECEDENCE (type top) >=? precedence)
      then shy_values <- reduce top shy_values ;;
           reduce_while_binding precedence below shy_values
      else Return (shy_operators, shy_values)
  end.

(** The loop run for a right parenthesis. *)
Fixpoint reduce_until_left_paren
    (shy_operators : list Token) (shy_values : list float)
  : Outcome (list Token * list float) :=
  match shy_operators with
  | [] => Return ([], shy_values)
  | top :: below =>
      if negb (TokenType_eqb (type top) TOKEN_LEFT_PAREN)
      then shy_values <- reduce top shy_values ;;
           reduce_until_left_paren below shy_values
      else Return (shy_operators, shy_values)
  end.

(** The loop run once the tokens are used up. *)
Fixpoint reduce_remaining
    (shy_operators : list Token) (shy_values : list float)
  : Outcome (list Token * list float) :=
  match shy_operators with
  | [] => Return ([], shy_values)
  | operator :: below =>
      if TokenType_eqb (type operator) TOKEN_LEFT_PAREN
      then Exit (MismatchedLeftParen (start_at operator))
      else shy_values <- reduce operator shy_values ;;
           reduce_remaining below shy_values
  end.

(** One round of the loop over the tokens. *)
Definition eval_token (token : Token)
    (shy_operators : list Token) (shy_values : list float)
  : Outcome (list Token * list float) :=
  if TokenType_eqb (type token) TOKEN_NUMBER
  then shy_values <- push_value (literal token) shy_values ;;
       Return (shy_operators, shy_values)
  else
    let precedence := TOKEN_TYPE_PRECEDENCE (type token) in
    '(shy_operators, shy_values) <-
      (if precedence >? 0
       then '(shy_operators, shy_values) <-
              reduce_while_binding precedence shy_operators shy_values ;;
            shy_operators <- push_operator token shy_operators ;;
            Return (shy_operators, shy_values)
       else Return (shy_operators, shy_values)) ;;
    if TokenType_eqb (type token) TOKEN_LEFT_PAREN
    then shy_operators <- push_operator token shy_operators ;;
         Return (shy_operators, shy_values)
    else if TokenType_eqb (type token) TOKEN_RIGHT_PAREN
    then '(shy_operators, shy_values) <-
           reduce_until_left_paren shy_operators shy_values ;;
         if shy_count shy_operators =? 0
         then Exit (MismatchedRightParen (start_at token))
         else '(_, shy_operators) <- pop_operator shy_operators ;;
              Return (shy_operators, shy_values)
    else Return (shy_operators, shy_values).

Fixpoint eval_tokens (tokens : TokenList)
    (shy_operators : list Token) (shy_values : list float)
  : Outcome (list Token * list float) :=
  match tokens with
  | [] => Return (shy_operators, shy_values)
  | token :: tokens' =>
      '(shy_operators, shy_values) <- eval_token token shy_operators shy_values ;;
      eval_tokens tokens' shy_operators shy_values
  end.

(** [eval_by_shunting_yard], started on the given stacks; it returns the
    result together with the stacks it leaves behind. *)
Definition eval_from (tokens : TokenList)
    (shy_operators : list Token) (shy_values : list float)
  : Outcome (float * (list Token * list float)) :=
  '(shy_operators, shy_values) <- eval_tokens tokens shy_operators shy_values ;;
  '(shy_operators, shy_values) <- reduce_remaining shy_operators shy_values ;;
  if negb (shy_count shy_values =? 1)
  then Exit CannotEvaluate
  else '(result, shy_values) <- pop_value shy_values ;;
       Return (result, (shy_operators, shy_values)).

(** The one call the program makes: both stacks are empty at that point. *)
Definition eval_by_shunting_yard (tokens : TokenList) : Outcome float :=
  '(result, _) <- eval_from tokens [] [] ;;
  Return result.

(** [process_file] without its input and output: scan the buffer, then
    evaluate the tokens. *)
Definition process_source (source : list ascii) : option (Outcome float) :=
  match scanner_execute (scanner_init source) with
  | Some (Return tokens) => Some (eval_by_shunting_yard tokens)
  | Some (Exit f) => Some (Exit f)
  | None => None
  end.

Definition process (line : string) : option (Outcome float) :=
  process_source (list_ascii_of_string line).


(** * Vocabulary of the statements *)

(** ** About the source line and the token spans *)

(** The line ends at the first NUL or line feed, or with the buffer. *)
Definition is_terminator (c : ascii) : bool := Ascii.eqb c NUL || Ascii.eqb c LF.

Fixpoint line_length (source : list ascii) : nat :=
  match source with
  | c :: source' => if is_terminator c then O else S (line_length source')
  | [] => O
  end.

Definition with_current (scanner : Scanner) (c : Z) : Scanner :=
  {| source := source scanner; tokens := tokens scanner;
     start := start scanner; current := c |}.

(** The characters [source[from .. to]], both ends included. *)
Definition slice (source : list ascii) (from to : Z) : list ascii :=
  memcpy source from (to - from + 1).

(** The text of a number as the lexer is specified to read it: a maximal run
    of digits, then, when a dot comes next with a digit right behind it, the
    dot and another maximal run of digits. *)
Fixpoint digit_run (s : list ascii) : list ascii :=
  match s with
  | c :: s' => if IS_DIGIT c then c :: digit_run s' else []
  | [] => []
  end.

Definition number_text (s : list ascii) : list ascii :=
  let int_part := digit_run s in
  match skipn (List.length int_part) s with
  | c :: d :: rest =>
      if Ascii.eqb c "." && IS_DIGIT d
      then int_part ++ c :: digit_run (d :: rest)
      else int_part
  | _ => int_part
  end.

(** The character a token of one character is scanned from. *)
Definition token_char (t : TokenType) : ascii :=
  match t with
  | TOKEN_UMINUS | TOKEN_MINUS => "-"
  | TOKEN_STAR => "*"
  | TOKEN_SLASH => "/"
  | TOKEN_PLUS => "+"
  | TOKEN_LEFT_PAREN => "("
  | TOKEN_RIGHT_PAREN => ")"
  | TOKEN_NUMBER => "0"
  end.

(** What the scanner's buffer [liter_as_str] holds for a number scanned from
    offset [from]: two characters and the closing NUL. *)
Definition literal_buffer (source : list ascii) (from : Z) : list ascii :=
  memcpy source from 2 ++ [NUL].

(** A minus sign is unary at the start and after any token but a number or a
    right parenthesis; [prev] is the type of the token stored last. *)
Definition unary_position (prev : option TokenType) : bool :=
  match prev with
  | None => true
  | Some t => negb (TokenType_eqb t TOKEN_NUMBER)
              && negb (TokenType_eqb t TOKEN_RIGHT_PAREN)
  end.

(** What holds of a token the scanner stores after a token of type [prev]. *)
Definition token_ok (source : list ascii) (prev : option TokenType) (t : Token)
  : Prop :=
  0 <= start_at t <= end_at t /\
  end_at t < Z.of_nat (line_length source) /\
  match type t with
  | TOKEN_NUMBER =>
      slice source (start_at t) (end_at t)
        = number_text (skipn (Z.to_nat (start_at t)) source) /\
      IS_DIGIT (char_at source (start_at t)) = true /\
      literal t = atof (c_string (literal_buffer source (start_at t)))
  | ty =>
      end_at t = start_at t /\
      char_at source (start_at t) = token_char ty /\
      match ty with
      | TOKEN_UMINUS => unary_position prev = true
      | TOKEN_MINUS => unary_position prev = false
      | _ => True
      end
  end.

(** The token lists the scanner builds over [source], one token at a time. *)
Inductive scanned (source : list ascii) : TokenList -> Prop :=
| scanned_nil : scanned source []
| scanned_snoc (tl : TokenList) (t : Token) :
    scanned source tl -> token_ok source (last_type tl) t ->
    scanned source (tl ++ [t]).

Definition scanner_inv (scanner : Scanner) : Prop :=
  0 <= current scanner <= Z.of_nat (line_length (source scanner)) /\
  scanned (source scanner) (tokens scanner).

(** What the loop of [scanner_execute] hands back. *)
Definition loop_result (src : list ascii) (r : Outcome Scanner) : Prop :=
  match r with
  | Return scanner' =>
      scanner_inv scanner' /\ source scanner' = src /\
      scanner_is_at_end scanner' = true
  | Exit f =>
      exists pos, 0 <= pos < Z.of_nat (line_length src) /\
                  f = UnexpectedCharacter (char_at src pos) pos /\
                  IS_DIGIT (char_at src pos) = false
  end.

(** The scanner run on a line given as a string. *)
Definition scan (line : string) : option (Outcome TokenList) :=
  scanner_execute (scanner_init (list_ascii_of_string line)).

(** ** About the evaluator *)

(** The five operator kinds, which are the kinds of precedence above zero. *)
Definition is_operator (t : TokenType) : bool :=
  match t with
  | TOKEN_UMINUS | TOKEN_STAR | TOKEN_SLASH | TOKEN_PLUS | TOKEN_MINUS => true
  | _ => false
  end.

Definition is_binary (t : TokenType) : bool :=
  match t with
  | TOKEN_STAR | TOKEN_SLASH | TOKEN_PLUS | TOKEN_MINUS => true
  | _ => false
  end.

(** An operator on the stack gives way to a token of precedence [p] when it is
    no left parenthesis and its precedence is at least [p]. *)
Definition gives_way (p : Z) (top : Token) : bool :=
  negb (TokenType_eqb (type top) TOKEN_LEFT_PAREN)
  && (TOKEN_TYPE_PRECEDENCE (type top) >=? p).

Definition not_left_paren (top : Token) : bool :=
  negb (TokenType_eqb (type top) TOKEN_LEFT_PAREN).

Fixpoint take_while {A : Type} (f : A -> bool) (l : list A) : list A :=
  match l with
  | a :: l' => if f a then a :: take_while f l' else []
  | [] => []
  end.

Fixpoint drop_while {A : Type} (f : A -> bool) (l : list A) : list A :=
  match l with
  | a :: l' => if f a then drop_while f l' else l
  | [] => []
  end.

(** The popped operators reduced one after the other, the topmost first. *)
Fixpoint reduce_all (popped : list Token) (shy_values : list float)
  : Outcome (list float) :=
  match popped with
  | [] => Return shy_values
  | operator :: popped' =>
      shy_values <- reduce operator shy_values ;;
      reduce_all popped' shy_values
  end.

(** The token sequences of well-formed expressions: a number, a negated
    expression, two expressions around a binary operator, an expression in
    parentheses.  Parentheses are balanced by construction. *)
Inductive well_formed : TokenList -> Prop :=
| wf_number (t : Token) :
    type t = TOKEN_NUMBER -> well_formed [t]
| wf_negate (t : Token) (e : TokenList) :
    type t = TOKEN_UMINUS -> well_formed e -> well_formed (t :: e)
| wf_binary (e1 : TokenList) (t : Token) (e2 : TokenList) :
    is_binary (type t) = true -> well_formed e1 -> well_formed e2 ->
    well_formed (e1 ++ t :: e2)
| wf_parens (l : Token) (e : TokenList) (r : Token) :
    type l = TOKEN_LEFT_PAREN -> type r = TOKEN_RIGHT_PAREN -> well_formed e ->
    well_formed (l :: e ++ [r]).

Definition starts_with_uminus (e : list Token) : bool :=
  match e with
  | t :: _ => TokenType_eqb (type t) TOKEN_UMINUS
  | [] => false
  end.

(** No unary minus is directly followed by another one. *)
Fixpoint no_double_uminus (e : TokenList) : bool :=
  match e with
  | t :: e' =>
      negb (TokenType_eqb (type t) TOKEN_UMINUS && starts_with_uminus e')
      && no_double_uminus e'
  | [] => true
  end.

(** The number of binary operators on the operator stack. *)
Fixpoint pending_binary (ops : list Token) : nat :=
  match ops with
  | t :: ops' => (if is_binary (type t) then 1 else 0) + pending_binary ops'
  | [] => O
  end.

Definition operators_only (ops : list Token) : Prop :=
  Forall (fun t => is_operator (type t) = true) ops.

(** The part of the operator stack from its topmost left parenthesis down. *)
Definition paren_or_bottom (ops : list Token) : Prop :=
  match ops with
  | t :: _ => type t = TOKEN_LEFT_PAREN
  | [] => True
  end.

(** The call exits because one of the two stacks is full. *)
Definition overflowed {A : Type} (o : Outcome A) : Prop :=
  o = Exit OperatorsStackOverflowed \/ o = Exit ValuesStackOverflowed.

(** The number one inside [depth] pairs of parentheses, as a source line and
    as the tokens the scanner makes of it. *)
Definition nested_source (depth : nat) : list ascii :=
  repeat "("%char depth ++ "1"%char :: repeat ")"%char depth.

Definition paren_token (ty : TokenType) (at_offset : nat) : Token :=
  {| type := ty; literal := unset_literal;
     start_at := Z.of_nat at_offset; end_at := Z.of_nat at_offset |}.

Definition nested_tokens (depth : nat) : TokenList :=
  map (paren_token TOKEN_LEFT_PAREN) (seq 0 depth)
  ++ {| type := TOKEN_NUMBER; literal := 1%float;
        start_at := Z.of_nat depth; end_at := Z.of_nat depth |}
  :: map (paren_token TOKEN_RIGHT_PAREN) (seq (S depth) depth).

(** ** The value of an expression under the usual precedences *)

Definition apply_binary (ty : TokenType) (lhs rhs : float) : float :=
  match ty with
  | TOKEN_STAR => (lhs * rhs)%float
  | TOKEN_SLASH => (lhs / rhs)%float
  | TOKEN_PLUS => (lhs + rhs)%float
  | TOKEN_MINUS => (lhs - rhs)%float
  | _ => lhs
  end.

(** [parses q e v]: the tokens [e] read as an expression whose outermost
    operators all have precedence [q] or more, and its value is [v].  Binary
    operators group to the left; a unary minus applies to a number or to an
    expression in parentheses, which stand at level 5. *)
Inductive parses : Z -> TokenList -> float -> Prop :=
| parses_number (t : Token) :
    type t = TOKEN_NUMBER -> parses 5 [t] (literal t)
| parses_parens (l : Token) (e : TokenList) (r : Token) (v : float) :
    type l = TOKEN_LEFT_PAREN -> type r = TOKEN_RIGHT_PAREN ->
    parses 2 e v -> parses 5 (l :: e ++ [r]) v
| parses_negate (t : Token) (e : TokenList) (v : float) :
    type t = TOKEN_UMINUS -> parses 5 e v -> parses 4 (t :: e) (- v)%float
| parses_binary (e1 : TokenList) (t : Token) (e2 : TokenList) (v1 v2 : float) :
    is_binary (type t) = true ->
    parses (TOKEN_TYPE_PRECEDENCE (type t)) e1 v1 ->
    parses (TOKEN_TYPE_PRECEDENCE (type t) + 1) e2 v2 ->
    parses (TOKEN_TYPE_PRECEDENCE (type t)) (e1 ++ t :: e2)
           (apply_binary (type t) v1 v2)
| parses_level (q q' : Z) (e : TokenList) (v : float) :
    q' <= q -> parses q e v -> parses q' e v.

(** The top of the operator stack does not give way to precedence [q]. *)
Definition holds_back (q : Z) (ops : list Token) : Prop :=
  match ops with
  | top :: _ => gives_way q top = false
  | [] => True
  end.

(** Operators that all give way to precedence [q]. *)
Definition binds_at_least (q : Z) (pend : list Token) : Prop :=
  Forall (fun t => is_operator (type t) = true /\
                   q <= TOKEN_TYPE_PRECEDENCE (type t)) pend.

(** ** The ways an evaluation can end *)

(** What the evaluator keeps on its operator stack: operators and left
    parentheses taken from the token list [tl]. *)
Definition stack_token (tl : TokenList) (t : Token) : Prop :=
  In t tl /\ (is_operator (type t) = true \/ type t = TOKEN_LEFT_PAREN).

(** The exits of an evaluation of [tl]: a full stack, too few values, a
    value count other than one at the end, or a parenthesis of [tl] without
    its partner, reported at its own position. *)
Definition evaluation_failure (tl : TokenList) (f : Failure) : Prop :=
  f = OperatorsStackOverflowed \/ f = ValuesStackOverflowed \/
  f = ValuesStackEmpty \/ f = CannotEvaluate \/
  (exists t, In t tl /\ type t = TOKEN_RIGHT_PAREN /\
             f = MismatchedRightParen (start_at t)) \/
  (exists t, In t tl /\ type t = TOKEN_LEFT_PAREN /\
             f = MismatchedLeftParen (start_at t)).

(** ** Counting tokens *)

(** How many tokens of [tl] have a type that passes [test]. *)
Definition how_many (test : TokenType -> bool) (tl : list Token) : nat :=
  List.length (filter (fun t => test (type t)) tl).

Definition is_number (t : TokenType) : bool := TokenType_eqb t TOKEN_NUMBER.
Definition is_left_paren (t : TokenType) : bool := TokenType_eqb t TOKEN_LEFT_PAREN.
Definition is_right_paren (t : TokenType) : bool := TokenType_eqb t TOKEN_RIGHT_PAREN.

(** ** What the scanner reads *)

(** The characters that start a token, and those the scanner gets past. *)
Definition starts_token (c : ascii) : bool :=
  IS_DIGIT c || Ascii.eqb c "+" || Ascii.eqb c "-" || Ascii.eqb c "*"
  || Ascii.eqb c "/" || Ascii.eqb c "(" || Ascii.eqb c ")".

Definition accepted (c : ascii) : bool := starts_token c || Ascii.eqb c " ".

(** Every pair of tokens is in the order of the source, spans apart. *)
Definition in_order (tl : TokenList) : Prop :=
  forall (i j : nat) (a b : Token),
    (i < j)%nat -> nth_error tl i = Some a -> nth_error tl j = Some b ->
    end_at a < start_at b.

(** Every offset below [upto] holds a space or lies in the span of a token. *)
Definition covered (source : list ascii) (tl : TokenList) (upto : Z) : Prop :=
  forall i : Z, 0 <= i < upto ->
    char_at source i = " "%char \/
    exists t, In t tl /\ start_at t <= i <= end_at t.

Definition tiling_inv (scanner : Scanner) : Prop :=
  (forall t, In t (tokens scanner) -> end_at t < current scanner) /\
  in_order (tokens scanner) /\
  covered (source scanner) (tokens scanner) (current scanner).

(** The scanner in the same state over another buffer. *)
Definition retarget (source' : list ascii) (scanner : Scanner) : Scanner :=
  {| source := source'; tokens := tokens scanner;
     start := start scanner; current := current scanner |}.

Definition retarget_outcome (source' : list ascii) (o : option (Outcome Scanner))
  : option (Outcome Scanner) :=
  match o with
  | Some (Return scanner) => Some (Return (retarget source' scanner))
  | Some (Exit f) => Some (Exit f)
  | None => None
  end.

(** ** The token list with its capacity

    The scanner above keeps the tokens of a [TokenList] as a plain list.  Here
    is the structure as the code has it: [items] points to [capacity] slots of
    which the first [count] hold the tokens ([items] below lists these), and
    [token_list_add_item] makes room, ten slots at first and twice as many
    from then on, before it writes [items[count++]].  [realloc] is taken to
    succeed. *)
Module Buffer.

Record TokenList : Type := mkTokenList {
  items : list Token;
  count : Z;
  capacity : Z
}.

Definition token_list_init : TokenList :=
  {| items := []; count := 0; capacity := 0 |}.

Definition token_list_add_item (tl : TokenList) (t : Token) : TokenList :=
  let capacity :=
    if count tl >=? capacity tl
    then (if capacity tl =? 0 then 10 else capacity tl * 2)
    else capacity tl in
  {| items := items tl ++ [t]; count := count tl + 1; capacity := capacity |}.

(** The list after the tokens of [l] were added, one after the other. *)
Definition filled (l : list Token) : TokenList :=
  fold_left token_list_add_item l token_list_init.

(** What every reachable token list satisfies. *)
Definition well_sized (tl : TokenList) : Prop :=
  count tl = Z.of_nat (List.length (items tl)) /\
  ((count tl = 0 /\ capacity tl = 0) \/
   (1 <= count tl <= capacity tl /\
    capacity tl <= Z.max 10 (2 * count tl - 2))).

End Buffer.

(** * The scanner, step by step *)

Section ScannerFacts.

Lemma nth_hd_skipn (A : Type) (d : A) (n : nat) (l : list A) :
  nth n l d = hd d (skipn n l).
Proof.
  revert l; induction n as [|n IH]; intros [|a l]; simpl; auto.
Qed.

Lemma skipn_succ_tl (A : Type) (n : nat) (l : list A) :
  skipn (S n) l = tl (skipn n l).
Proof.
  revert l; induction n as [|n IH]; intros [|a l]; auto.
  change (skipn (S (S n)) (a :: l)) with (skipn (S n) l).
  rewrite IH. reflexivity.
Qed.

Lemma char_at_unread (src : list ascii) (i : Z) :
  0 <= i -> char_at src i = hd NUL (skipn (Z.to_nat i) src).
Proof.
  intros Hi. unfold char_at.
  destruct (Z.ltb_spec i 0); [lia|]. apply nth_hd_skipn.
Qed.

Lemma skipn_next (src : list ascii) (i : Z) :
  0 <= i -> skipn (Z.to_nat (i + 1)) src = tl (skipn (Z.to_nat i) src).
Proof.
  intros Hi. replace (Z.to_nat (i + 1)) with (S (Z.to_nat i)) by lia.
  apply skipn_succ_tl.
Qed.

Lemma peek_unread (scanner : Scanner) :
  0 <= current scanner -> scanner_peek scanner = hd NUL (unread scanner).
Proof. intros H. unfold scanner_peek, unread. now apply char_at_unread. Qed.

Lemma unread_advance (scanner : Scanner) :
  0 <= current scanner ->
  unread (snd (scanner_advance scanner)) = tl (unread scanner).
Proof. intros H. unfold unread; simpl. now apply skipn_next. Qed.

Lemma digit_not_terminator (c : ascii) :
  IS_DIGIT c = true -> is_terminator c = false.
Proof.
  unfold IS_DIGIT, is_terminator. intros H.
  apply andb_true_iff in H. destruct H as [H1 H2].
  apply Nat.leb_le in H1.
  destruct (Ascii.eqb_spec c NUL) as [->|_]; [vm_compute in H1; lia|].
  destruct (Ascii.eqb_spec c LF) as [->|_]; [vm_compute in H1; lia|].
  reflexivity.
Qed.

(** [line_length] is the first offset at which the scanner is at the end. *)
Lemma line_length_terminator (src : list ascii) :
  is_terminator (char_at src (Z.of_nat (line_length src))) = true.
Proof.
  unfold char_at. destruct (Z.ltb_spec (Z.of_nat (line_length src)) 0); [lia|].
  rewrite Nat2Z.id.
  induction src as [|c src IH]; simpl; [reflexivity|].
  destruct (is_terminator c) eqn:E; simpl; [exact E | apply IH; lia].
Qed.

Lemma line_length_le_length (src : list ascii) :
  (line_length src <= List.length src)%nat.
Proof.
  induction src as [|c src IH]; simpl; [lia|].
  destruct (is_terminator c); lia.
Qed.

Lemma not_terminator_lt_line_length (src : list ascii) (i : nat) :
  (i <= line_length src)%nat -> is_terminator (nth i src NUL) = false ->
  (i < line_length src)%nat.
Proof.
  intros Hle Hc.
  destruct (Nat.eq_dec i (line_length src)) as [->|]; [|lia].
  pose proof (line_length_terminator src) as H.
  unfold char_at in H.
  destruct (Z.ltb_spec (Z.of_nat (line_length src)) 0); [lia|].
  rewrite Nat2Z.id in H. congruence.
Qed.

(** A run of characters none of which ends the line stays inside the line. *)
Lemma run_inside_line (src run rest : list ascii) (i : nat) :
  (i <= line_length src)%nat ->
  skipn i src = run ++ rest ->
  Forall (fun c => is_terminator c = false) run ->
  (i + List.length run <= line_length src)%nat.
Proof.
  revert i; induction run as [|c run IH]; intros i Hi Hskip Hall; simpl; [lia|].
  inversion Hall as [|? ? Hc Hrun]; subst.
  assert (Hlt : (i < line_length src)%nat).
  { apply not_terminator_lt_line_length; [assumption|].
    rewrite nth_hd_skipn, Hskip. exact Hc. }
  specialize (IH (S i) Hlt).
  rewrite skipn_succ_tl, Hskip in IH. specialize (IH eq_refl Hrun). lia.
Qed.

Lemma advance_while_digit_spec (rest : list ascii) (scanner : Scanner) :
  0 <= current scanner -> unread scanner = rest ->
  advance_while_digit rest scanner =
  with_current scanner (current scanner + Z.of_nat (List.length (digit_run rest))).
Proof.
  revert scanner; induction rest as [|c rest IH]; intros scanner Hc Hrest;
    cbn [advance_while_digit digit_run].
  - destruct scanner; unfold with_current; simpl; f_equal; lia.
  - rewrite peek_unread, Hrest by assumption. cbn [hd].
    destruct (IS_DIGIT c) eqn:Hd.
    + rewrite IH.
      * destruct scanner; unfold with_current; simpl; f_equal; lia.
      * simpl; lia.
      * rewrite unread_advance, Hrest by assumption. reflexivity.
    + destruct scanner; unfold with_current; simpl; f_equal; lia.
Qed.

Lemma digit_run_prefix (s : list ascii) :
  s = digit_run s ++ skipn (List.length (digit_run s)) s.
Proof.
  induction s as [|c s IH]; simpl; [reflexivity|].
  destruct (IS_DIGIT c); simpl; [f_equal; exact IH | reflexivity].
Qed.

Lemma digit_run_digits (s : list ascii) :
  Forall (fun c => IS_DIGIT c = true) (digit_run s).
Proof.
  induction s as [|c s IH]; simpl; [constructor|].
  destruct (IS_DIGIT c) eqn:E; constructor; assumption.
Qed.

Lemma number_text_prefix (s : list ascii) :
  s = number_text s ++ skipn (List.length (number_text s)) s.
Proof.
  unfold number_text.
  pose proof (digit_run_prefix s) as Hs.
  destruct (skipn (List.length (digit_run s)) s) as [|c [|d rest]] eqn:E;
    try (rewrite E; exact Hs).
  destruct (Ascii.eqb c "." && IS_DIGIT d); [|rewrite E; exact Hs].
  pose proof (digit_run_prefix (d :: rest)) as Hr.
  set (frac := digit_run (d :: rest)) in *.
  assert (Hskip : skipn (List.length (digit_run s ++ c :: frac)) s
                  = skipn (List.length frac) (d :: rest)).
  { rewrite length_app. simpl List.length.
    replace (List.length (digit_run s) + S (List.length frac))%nat
      with (S (List.length frac) + List.length (digit_run s))%nat by lia.
    rewrite <- skipn_skipn, E. reflexivity. }
  rewrite Hskip, <- app_assoc. simpl.
  rewrite <- Hr. exact Hs.
Qed.

Lemma items_last (tl : TokenList) (t : Token) :
  items (tl ++ [t]) (count (tl ++ [t]) - 1) = Some t.
Proof.
  unfold items, count. rewrite length_app. simpl List.length.
  destruct (Z.ltb_spec (Z.of_nat (List.length tl + 1) - 1) 0); [lia|].
  replace (Z.to_nat (Z.of_nat (List.length tl + 1) - 1)) with (List.length tl) by lia.
  rewrite nth_error_app2, Nat.sub_diag by lia. reflexivity.
Qed.

Lemma set_last_literal_snoc (tl : TokenList) (t : Token) (v : float) :
  set_last_literal (tl ++ [t]) v =
  tl ++ [{| type := type t; literal := v;
            start_at := start_at t; end_at := end_at t |}].
Proof.
  unfold set_last_literal. rewrite rev_app_distr. simpl.
  rewrite rev_involutive. reflexivity.
Qed.

Lemma last_type_snoc (tl : TokenList) (t : Token) :
  last_type (tl ++ [t]) = Some (type t).
Proof. unfold last_type. rewrite items_last. reflexivity. Qed.

(** The test that guards the fraction, read on the unread characters. *)
Lemma fraction_test (scanner : Scanner) :
  0 <= current scanner ->
  Ascii.eqb (scanner_peek scanner) "." && IS_DIGIT (scanner_peek_next scanner) =
  match unread scanner with
  | c :: d :: _ => Ascii.eqb c "." && IS_DIGIT d
  | _ => false
  end.
Proof.
  intros Hc. unfold scanner_peek_next.
  rewrite peek_unread by assumption.
  rewrite char_at_unread, skipn_next by lia.
  fold (unread scanner).
  destruct (unread scanner) as [|c [|d rest]]; simpl; try reflexivity.
  - destruct (Ascii.eqb c NUL); simpl; apply andb_false_r.
  - destruct (Ascii.eqb_spec c NUL) as [->|]; reflexivity.
Qed.

Ltac store_number :=
  unfold scanner_add_token, token_list_add_item;
  cbn [source tokens start current with_current scanner_advance snd];
  rewrite items_last, set_last_literal_snoc;
  cbn [type start_at end_at literal source tokens start current];
  match goal with
  | |- context [memcpy _ _ ?n] => replace n with 2 by lia
  end;
  unfold literal_buffer; repeat (f_equal; try lia).

(** What [scanner_number] does once the first digit, at offset [start], has
    been read: it reads on to the end of [number_text], stores a number token
    over these characters, and parses two characters as its value. *)
Lemma scanner_number_spec (scanner : Scanner) :
  0 <= start scanner ->
  current scanner = start scanner + 1 ->
  IS_DIGIT (char_at (source scanner) (start scanner)) = true ->
  let text := number_text (skipn (Z.to_nat (start scanner)) (source scanner)) in
  scanner_number scanner =
  {| source := source scanner;
     tokens := tokens scanner ++
       [{| type := TOKEN_NUMBER;
           literal := atof (c_string (literal_buffer (source scanner) (start scanner)));
           start_at := start scanner;
           end_at := start scanner + Z.of_nat (List.length text) - 1 |}];
     start := start scanner;
     current := start scanner + Z.of_nat (List.length text) |}.
Proof.
  intros Hs Hcur Hdig text.
  set (s := skipn (Z.to_nat (start scanner)) (source scanner)) in *.
  assert (Hunread : unread scanner = tl s).
  { unfold unread. rewrite Hcur. now apply skipn_next. }
  rewrite char_at_unread in Hdig by assumption. fold s in Hdig.
  destruct s as [|c s'] eqn:Es; [discriminate|]. simpl in Hdig, Hunread.
  unfold scanner_number. rewrite Hunread.
  rewrite (advance_while_digit_spec (rest := s')) by (assumption || lia).
  set (k := List.length (digit_run (c :: s'))).
  assert (Hk : with_current scanner (current scanner + Z.of_nat (List.length (digit_run s')))
               = with_current scanner (start scanner + Z.of_nat k)).
  { unfold k; simpl; rewrite Hdig; simpl List.length. f_equal. lia. }
  rewrite Hk; clear Hk.
  set (sc1 := with_current scanner (start scanner + Z.of_nat k)).
  assert (Hun1 : unread sc1 = skipn k (c :: s')).
  { unfold unread, sc1; simpl.
    replace (Z.to_nat (start scanner + Z.of_nat k))
      with (k + Z.to_nat (start scanner))%nat by lia.
    rewrite <- skipn_skipn. fold s. rewrite Es. reflexivity. }
  rewrite fraction_test by (unfold sc1; simpl; lia).
  rewrite Hun1.
  assert (Htext : text = number_text (c :: s')) by reflexivity.
  unfold number_text in Htext. fold k in Htext.
  destruct (skipn k (c :: s')) as [|c1 [|d rest]] eqn:Esk.
  - rewrite Htext. fold k.
    store_number.
  - rewrite Htext. fold k.
    store_number.
  - destruct (Ascii.eqb c1 "." && IS_DIGIT d) eqn:Efrac.
    + assert (Hun2 : unread (snd (scanner_advance sc1)) = d :: rest).
      { rewrite unread_advance by (unfold sc1; simpl; lia).
        rewrite Hun1. reflexivity. }
      rewrite Hun2.
      rewrite (advance_while_digit_spec (rest := d :: rest))
        by (assumption || (unfold sc1; simpl; lia)).
      rewrite Htext, length_app. fold k. cbn [List.length].
      unfold sc1. store_number.
    + rewrite Htext. fold k.
      store_number.
Qed.

Lemma map_nth_seq (A : Type) (d : A) (l : list A) (n : nat) :
  (n <= List.length l)%nat ->
  map (fun k => nth k l d) (seq 0 n) = firstn n l.
Proof.
  revert n; induction l as [|a l IH]; intros [|n] Hn; simpl in *; try lia; auto.
  f_equal. rewrite <- seq_shift, map_map. apply IH. lia.
Qed.

Lemma memcpy_firstn (src : list ascii) (from : Z) (n : nat) :
  0 <= from -> (Z.to_nat from + n <= List.length src)%nat ->
  memcpy src from (Z.of_nat n) = firstn n (skipn (Z.to_nat from) src).
Proof.
  intros Hf Hn. unfold memcpy. rewrite Nat2Z.id.
  rewrite <- (map_nth_seq NUL).
  - apply map_ext. intros k. unfold char_at.
    destruct (Z.ltb_spec (from + Z.of_nat k) 0); [lia|].
    rewrite nth_skipn. f_equal. lia.
  - rewrite length_skipn. lia.
Qed.

Lemma firstn_prefix (A : Type) (p rest : list A) :
  firstn (List.length p) (p ++ rest) = p.
Proof.
  rewrite firstn_app, Nat.sub_diag, firstn_all. simpl. apply app_nil_r.
Qed.

Lemma number_text_no_terminator (s : list ascii) :
  Forall (fun c => is_terminator c = false) (number_text s).
Proof.
  assert (Hrun : forall r, Forall (fun c => is_terminator c = false) (digit_run r)).
  { intros r. eapply Forall_impl; [|apply digit_run_digits].
    intros c. apply digit_not_terminator. }
  unfold number_text.
  destruct (skipn (List.length (digit_run s)) s) as [|c [|d rest]]; auto.
  destruct (Ascii.eqb_spec c ".") as [->|]; simpl; auto.
  destruct (IS_DIGIT d) eqn:Hd; auto.
  apply Forall_app; split; auto.
  constructor; [reflexivity|].
  change (d :: digit_run rest) with (if true then d :: digit_run rest else []).
  rewrite <- Hd. apply (Hrun (d :: rest)).
Qed.

Lemma number_text_nonempty (c : ascii) (s : list ascii) :
  IS_DIGIT c = true -> (1 <= List.length (number_text (c :: s)))%nat.
Proof.
  intros Hd. unfold number_text.
  assert (H1 : (1 <= List.length (digit_run (c :: s)))%nat)
    by (simpl; rewrite Hd; simpl; lia).
  destruct (skipn (List.length (digit_run (c :: s))) (c :: s)) as [|c1 [|d rest]];
    try assumption.
  destruct (Ascii.eqb c1 "." && IS_DIGIT d); [|assumption].
  rewrite length_app. lia.
Qed.

Lemma minus_test (tl : TokenList) :
  (count tl =? 0)
  || match last_type tl with
     | Some t => negb (TokenType_eqb t TOKEN_NUMBER)
                 && negb (TokenType_eqb t TOKEN_RIGHT_PAREN)
     | None => false
     end
  = unary_position (last_type tl).
Proof.
  destruct tl as [|t0 tl0] using rev_ind; [reflexivity|].
  rewrite last_type_snoc. unfold count. rewrite length_app. simpl List.length.
  destruct (Z.eqb_spec (Z.of_nat (List.length tl0 + 1)) 0); [lia|].
  reflexivity.
Qed.

Lemma number_token_ok (src : list ascii) (prev : option TokenType) (from : Z) :
  0 <= from <= Z.of_nat (line_length src) ->
  IS_DIGIT (char_at src from) = true ->
  let text := number_text (skipn (Z.to_nat from) src) in
  token_ok src prev
    {| type := TOKEN_NUMBER;
       literal := atof (c_string (literal_buffer src from));
       start_at := from;
       end_at := from + Z.of_nat (List.length text) - 1 |}
  /\ from + Z.of_nat (List.length text) <= Z.of_nat (line_length src)
  /\ 1 <= Z.of_nat (List.length text).
Proof.
  intros Hfrom Hdig text.
  pose proof (number_text_prefix (skipn (Z.to_nat from) src)) as Hpre.
  fold text in Hpre.
  assert (Hlen : (1 <= List.length text)%nat).
  { unfold text. rewrite char_at_unread in Hdig by lia.
    destruct (skipn (Z.to_nat from) src) as [|c s']; [discriminate|].
    now apply number_text_nonempty. }
  assert (Hin : (Z.to_nat from + List.length text <= line_length src)%nat).
  { eapply run_inside_line; [lia | exact Hpre | apply number_text_no_terminator]. }
  pose proof (line_length_le_length src) as Hll.
  split; [|lia].
  unfold token_ok; simpl. repeat split; try lia; try assumption.
  unfold slice.
  replace (from + Z.of_nat (List.length text) - 1 - from + 1)
    with (Z.of_nat (List.length text)) by lia.
  rewrite memcpy_firstn by lia.
  rewrite Hpre at 1. apply firstn_prefix.
Qed.

Lemma char_token_ok (src : list ascii) (prev : option TokenType)
    (ty : TokenType) (from : Z) :
  0 <= from < Z.of_nat (line_length src) ->
  ty <> TOKEN_NUMBER ->
  char_at src from = token_char ty ->
  match ty with
  | TOKEN_UMINUS => unary_position prev = true
  | TOKEN_MINUS => unary_position prev = false
  | _ => True
  end ->
  token_ok src prev
    {| type := ty; literal := unset_literal;
       start_at := from; end_at := from + 1 - 1 |}.
Proof.
  intros Hfrom Hty Hc Hrule. unfold token_ok; simpl.
  split; [lia|]. split; [lia|].
  destruct ty; try congruence; (split; [lia | split; assumption]).
Qed.

(** One round of the scanner's loop: it keeps the invariant and reads at least
    one character, or stops on a character that starts no token. *)
Lemma scan_token_step (scanner : Scanner) :
  scanner_inv scanner ->
  scanner_is_at_end scanner = false ->
  match scanner_scan_token (set_start scanner) with
  | Return scanner' =>
      scanner_inv scanner' /\ source scanner' = source scanner /\
      current scanner < current scanner' /\
      (tokens scanner' = tokens scanner \/
       exists t, tokens scanner' = tokens scanner ++ [t])
  | Exit f =>
      f = UnexpectedCharacter (scanner_peek scanner) (current scanner) /\
      IS_DIGIT (scanner_peek scanner) = false
  end.
Proof.
  intros [Hcur Hsc] Hend.
  unfold scanner_is_at_end in Hend. fold (is_terminator (char_at (source scanner) (current scanner))) in Hend.
  assert (Hlt : current scanner < Z.of_nat (line_length (source scanner))).
  { assert ((Z.to_nat (current scanner) < line_length (source scanner))%nat); [|lia].
    apply not_terminator_lt_line_length; [lia|].
    unfold char_at in Hend.
    destruct (Z.ltb_spec (current scanner) 0); [lia | exact Hend]. }
  unfold scanner_scan_token, scanner_peek.
  set (c := char_at (source scanner) (current scanner)) in *.
  cbn [scanner_advance set_start source current start tokens].
  fold c.
  assert (Hone : forall ty,
    ty <> TOKEN_NUMBER -> c = token_char ty ->
    match ty with
    | TOKEN_UMINUS => unary_position (last_type (tokens scanner)) = true
    | TOKEN_MINUS => unary_position (last_type (tokens scanner)) = false
    | _ => True
    end ->
    let scanner' := scanner_add_token
      {| source := source scanner; tokens := tokens scanner;
         start := current scanner; current := current scanner + 1 |} ty in
    scanner_inv scanner' /\ source scanner' = source scanner /\
    current scanner < current scanner' /\
    (tokens scanner' = tokens scanner \/
     exists t, tokens scanner' = tokens scanner ++ [t])).
  { intros ty Hty Hc Hrule. unfold scanner_inv, scanner_add_token, token_list_add_item.
    cbn [source tokens start current].
    repeat split; try lia.
    - constructor; [assumption|]. now apply char_token_ok.
    - right. eexists. reflexivity. }
  destruct (Ascii.eqb_spec c "+"); [now apply (Hone TOKEN_PLUS)|].
  destruct (Ascii.eqb_spec c "-").
  { rewrite minus_test.
    destruct (unary_position (last_type (tokens scanner))) eqn:Hu;
      [now apply (Hone TOKEN_UMINUS) | now apply (Hone TOKEN_MINUS)]. }
  destruct (Ascii.eqb_spec c "*"); [now apply (Hone TOKEN_STAR)|].
  destruct (Ascii.eqb_spec c "/"); [now apply (Hone TOKEN_SLASH)|].
  destruct (Ascii.eqb_spec c "("); [now apply (Hone TOKEN_LEFT_PAREN)|].
  destruct (Ascii.eqb_spec c ")"); [now apply (Hone TOKEN_RIGHT_PAREN)|].
  destruct (Ascii.eqb_spec c " ").
  { unfold scanner_inv; cbn [source tokens start current].
    repeat split; try lia; auto. }
  destruct (IS_DIGIT c) eqn:Hd; [|split; [f_equal; lia | reflexivity]].
  rewrite scanner_number_spec; cbn [source tokens start current];
    try lia; try exact Hd.
  destruct (number_token_ok (source scanner) (last_type (tokens scanner))
              (from := current scanner)) as (Htok & Hin & Hlen); [lia | exact Hd |].
  unfold scanner_inv; cbn [source tokens start current].
  repeat split; try lia.
  - constructor; assumption.
  - right. eexists. reflexivity.
Qed.

(** The loop ends within the fuel [scanner_execute] gives it. *)
Lemma scanner_loop_ends (fuel : nat) (scanner : Scanner) :
  scanner_inv scanner ->
  Z.of_nat (line_length (source scanner)) - current scanner < Z.of_nat fuel ->
  exists r, scanner_loop fuel scanner = Some r /\ loop_result (source scanner) r.
Proof.
  revert scanner; induction fuel as [|fuel IH]; intros scanner Hinv Hfuel.
  - destruct Hinv as [Hcur _]. lia.
  - cbn [scanner_loop].
    destruct (scanner_is_at_end scanner) eqn:Hend.
    + exists (Return scanner). split; [reflexivity|]. simpl. auto.
    + pose proof (scan_token_step Hinv Hend) as Hstep.
      destruct (scanner_scan_token (set_start scanner)) as [scanner'|f].
      * destruct Hstep as (Hinv' & Hsrc & Hlt & _).
        destruct (IH scanner' Hinv') as (r & Hr & Hres); [rewrite Hsrc; lia|].
        exists r. split; [exact Hr|]. rewrite <- Hsrc. exact Hres.
      * destruct Hstep as [-> Hd]. eexists. split; [reflexivity|].
        exists (current scanner). unfold scanner_peek in Hd.
        destruct Hinv as [Hcur _].
        repeat split; try lia; try assumption.
        assert ((Z.to_nat (current scanner) < line_length (source scanner))%nat); [|lia].
        apply not_terminator_lt_line_length; [lia|].
        unfold scanner_is_at_end, char_at in Hend. unfold is_terminator.
        destruct (Z.ltb_spec (current scanner) 0); [lia | exact Hend].
Qed.

Lemma scanner_init_inv (src : list ascii) : scanner_inv (scanner_init src).
Proof. split; simpl; [lia | constructor]. Qed.

(** [scanner_execute] always ends: with the token list, every token of which
    is as [scanned] says, or on the first character that starts no token. *)
Lemma scanner_execute_ends (src : list ascii) :
  (exists tl, scanner_execute (scanner_init src) = Some (Return tl) /\
              scanned src tl) \/
  (exists pos, scanner_execute (scanner_init src)
                 = Some (Exit (UnexpectedCharacter (char_at src pos) pos)) /\
               0 <= pos < Z.of_nat (line_length src) /\
               IS_DIGIT (char_at src pos) = false).
Proof.
  unfold scanner_execute.
  destruct (@scanner_loop_ends (S (List.length (unread (scanner_init src))))
              (scanner_init src) (scanner_init_inv src)) as (r & Hr & Hres).
  { unfold unread; simpl. pose proof (line_length_le_length src). lia. }
  rewrite Hr. destruct r as [scanner'|f]; simpl in Hres.
  - left. exists (tokens scanner'). destruct Hres as ([_ Hsc] & Hsrc & _).
    split; [reflexivity|]. rewrite <- Hsrc. exact Hsc.
  - right. destruct Hres as (pos & Hpos & -> & Hd). exists pos. auto.
Qed.

End ScannerFacts.

(** * What the scanner stores *)

Section ScannedTokens.

Variable src : list ascii.

Lemma scanned_split (tl : TokenList) :
  scanned src tl ->
  forall before t after, tl = before ++ t :: after ->
  scanned src before /\ token_ok src (last_type before) t.
Proof.
  induction 1 as [|tl t' Hsc IH Hok]; intros before t after Heq.
  - destruct before; discriminate.
  - destruct (exists_last (l := t :: after)) as (after' & t'' & Hlast); [discriminate|].
    rewrite Hlast, app_assoc in Heq.
    apply app_inj_tail in Heq. destruct Heq as [-> ->].
    destruct after' as [|a after'].
    + simpl in Hlast. inversion Hlast; subst. rewrite app_nil_r in *. auto.
    + simpl in Hlast. inversion Hlast; subst.
      eapply IH. reflexivity.
Qed.

Lemma scanned_In (tl : TokenList) (t : Token) :
  scanned src tl -> In t tl -> exists prev, token_ok src prev t.
Proof.
  intros Hsc Hin. apply in_split in Hin. destruct Hin as (before & after & ->).
  exists (last_type before). eapply scanned_split; eauto.
Qed.

Lemma slice_length (from to : Z) :
  List.length (slice src from to) = Z.to_nat (to - from + 1).
Proof. unfold slice, memcpy. now rewrite length_map, length_seq. Qed.

Lemma slice_nth (from to i : Z) :
  from <= i <= to ->
  nth (Z.to_nat (i - from)) (slice src from to) NUL = char_at src i.
Proof.
  intros Hi. unfold slice, memcpy.
  rewrite (nth_indep _ NUL (char_at src (from + Z.of_nat 0)))
    by (rewrite length_map, length_seq; lia).
  rewrite (map_nth (fun k => char_at src (from + Z.of_nat k))).
  rewrite seq_nth by lia. f_equal. lia.
Qed.

End ScannedTokens.

(** In the text of a number that starts with a digit, a dot stands between two
    digits. *)
Lemma number_text_dot (s : list ascii) (j : nat) :
  IS_DIGIT (hd NUL s) = true ->
  (j < List.length (number_text s))%nat ->
  nth j (number_text s) NUL = "."%char ->
  (0 < j)%nat /\ (S j < List.length (number_text s))%nat /\
  IS_DIGIT (nth (j - 1) (number_text s) NUL) = true /\
  IS_DIGIT (nth (S j) (number_text s) NUL) = true.
Proof.
  intros Hhd Hj Hdot.
  assert (Hrun : forall r k, (k < List.length (digit_run r))%nat ->
                             IS_DIGIT (nth k (digit_run r) NUL) = true).
  { intros r k Hk. pose proof (digit_run_digits r) as Hall.
    rewrite Forall_forall in Hall. apply Hall. now apply nth_In. }
  assert (Hint : (1 <= List.length (digit_run s))%nat).
  { destruct s as [|c s]; [discriminate|]. simpl in *. rewrite Hhd. simpl; lia. }
  unfold number_text in *.
  set (int_part := digit_run s) in *.
  assert (Hnodot : (j < List.length int_part)%nat -> nth j int_part NUL <> "."%char).
  { intros Hlt Heq. specialize (Hrun s j Hlt). fold int_part in Hrun.
    rewrite Heq in Hrun. discriminate. }
  destruct (skipn (List.length int_part) s) as [|c [|d rest]];
    try (exfalso; now apply Hnodot).
  destruct (Ascii.eqb_spec c ".") as [->|]; simpl andb in *;
    [|exfalso; now apply Hnodot].
  destruct (IS_DIGIT d) eqn:Hd; [|exfalso; now apply Hnodot].
  set (frac := digit_run (d :: rest)) in *.
  assert (Hfrac : (1 <= List.length frac)%nat)
    by (unfold frac; simpl; rewrite Hd; simpl; lia).
  rewrite length_app in *. cbn [List.length] in *.
  destruct (Nat.lt_ge_cases j (List.length int_part)) as [Hlt|Hge].
  { rewrite app_nth1 in Hdot by assumption. exfalso. now apply Hnodot. }
  destruct (Nat.eq_dec j (List.length int_part)) as [->|Hne].
  - repeat split; try lia.
    + rewrite app_nth1 by lia. apply (Hrun s). fold int_part. lia.
    + rewrite app_nth2 by lia.
      replace (S (List.length int_part) - List.length int_part)%nat with 1%nat by lia.
      cbn [nth]. apply (Hrun (d :: rest)). fold frac. lia.
  - exfalso. rewrite app_nth2 in Hdot by lia.
    destruct (j - List.length int_part)%nat as [|k] eqn:Ek; [lia|].
    cbn [nth] in Hdot.
    assert (Hk : (k < List.length frac)%nat) by lia.
    specialize (Hrun (d :: rest) k Hk). fold frac in Hrun.
    rewrite Hdot in Hrun. discriminate.
Qed.

Lemma returned_tokens_scanned (src : list ascii) (tl : TokenList) :
  scanner_execute (scanner_init src) = Some (Return tl) -> scanned src tl.
Proof.
  intros Hrun.
  destruct (scanner_execute_ends src) as [(tl' & Htl & Hsc)|(pos & Hex & _)];
    [|congruence].
  assert (tl' = tl) by congruence. subst tl'. exact Hsc.
Qed.

(** A number token among the scanned ones: its span, its first character and
    its text. *)
Lemma scanned_number (src : list ascii) (tl : TokenList) (t : Token) :
  scanned src tl -> In t tl -> type t = TOKEN_NUMBER ->
  0 <= start_at t <= end_at t /\
  IS_DIGIT (char_at src (start_at t)) = true /\
  slice src (start_at t) (end_at t)
    = number_text (skipn (Z.to_nat (start_at t)) src) /\
  literal t = atof (c_string (literal_buffer src (start_at t))).
Proof.
  intros Hsc Hin Hnum.
  destruct (@scanned_In src tl t Hsc Hin) as (prev & Hspan & Hend & Hty).
  rewrite Hnum in Hty. tauto.
Qed.

(** The program ends on every source buffer: the scanner's loop never runs out
    of the fuel it is given, and the evaluator is a structural recursion. *)
Lemma process_source_ends (src : list ascii) :
  exists r, process_source src = Some r.
Proof.
  unfold process_source.
  destruct (scanner_execute_ends src) as [(tl & -> & _)|(pos & -> & _)]; eauto.
Qed.

(** * The claims about the scanner *)

(** C9: every token the scanner returns has a span of valid offsets into the
    source line ([0 <= start_at <= end_at < line_length]); a token that is not
    a number has [end_at = start_at]; and the span of a number token, sliced
    out of the source, is exactly the text of the number read from [start_at]
    (a maximal run of digits with its optional fraction). *)
Theorem token_spans_cover_lexemes (src : list ascii) (tl : TokenList) (t : Token) :
  scanner_execute (scanner_init src) = Some (Return tl) ->
  In t tl ->
  (0 <= start_at t <= end_at t /\
   end_at t < Z.of_nat (line_length src) <= Z.of_nat (List.length src)) /\
  (type t <> TOKEN_NUMBER -> end_at t = start_at t) /\
  (type t = TOKEN_NUMBER ->
   IS_DIGIT (char_at src (start_at t)) = true /\
   slice src (start_at t) (end_at t)
     = number_text (skipn (Z.to_nat (start_at t)) src)).
Proof.
  intros Hrun Hin.
  pose proof (returned_tokens_scanned src Hrun) as Hsc.
  destruct (@scanned_In src tl t Hsc Hin) as (prev & Hspan & Hend & Hty).
  pose proof (line_length_le_length src).
  split; [lia|]. split.
  - intros Hnot. destruct (type t); cbn iota zeta in Hty; try tauto; congruence.
  - intros Heq. rewrite Heq in Hty. tauto.
Qed.

Lemma token_spans_cover_lexemes_witness :
  let src := list_ascii_of_string "12.5*(3-4)" in
  let t := {| type := TOKEN_NUMBER; literal := 12%float;
              start_at := 0; end_at := 3 |} in
  slice src (start_at t) (end_at t) = list_ascii_of_string "12.5".
Proof.
  intros src t.
  destruct (@token_spans_cover_lexemes src
    [ {| type := TOKEN_NUMBER; literal := 12%float; start_at := 0; end_at := 3 |};
      {| type := TOKEN_STAR; literal := unset_literal; start_at := 4; end_at := 4 |};
      {| type := TOKEN_LEFT_PAREN; literal := unset_literal; start_at := 5; end_at := 5 |};
      {| type := TOKEN_NUMBER; literal := 3%float; start_at := 6; end_at := 6 |};
      {| type := TOKEN_MINUS; literal := unset_literal; start_at := 7; end_at := 7 |};
      {| type := TOKEN_NUMBER; literal := 4%float; start_at := 8; end_at := 8 |};
      {| type := TOKEN_RIGHT_PAREN; literal := unset_literal; start_at := 9; end_at := 9 |} ]
    t) as (_ & _ & Hnum).
  - vm_compute. reflexivity.
  - simpl. left. reflexivity.
  - destruct (Hnum eq_refl) as [_ Hslice]. rewrite Hslice. vm_compute. reflexivity.
Defined.

(** C6: a dot lies inside a number token only just after a digit of the token
    and just before another; ["3."] and [".5"] fail on their dot as an
    unexpected character, and ["3.5"] is one number token. *)
Theorem dot_needs_digit_on_both_sides :
  (forall (src : list ascii) (tl : TokenList) (t : Token) (i : Z),
     scanner_execute (scanner_init src) = Some (Return tl) ->
     In t tl -> type t = TOKEN_NUMBER ->
     start_at t <= i <= end_at t -> char_at src i = "."%char ->
     start_at t < i < end_at t /\
     IS_DIGIT (char_at src (i - 1)) = true /\
     IS_DIGIT (char_at src (i + 1)) = true) /\
  scan "3." = Some (Exit (UnexpectedCharacter "." 1)) /\
  scan ".5" = Some (Exit (UnexpectedCharacter "." 0)) /\
  option_map (fun r =>
      match r with
      | Return tl => map (fun t => (type t, start_at t, end_at t)) tl
      | Exit _ => []
      end) (scan "3.5")
    = Some [(TOKEN_NUMBER, 0, 2)].
Proof.
  split; [|repeat split; vm_compute; reflexivity].
  intros src tl t i Hrun Hin Hnum Hi Hdot.
  destruct (@scanned_number src tl t (returned_tokens_scanned src Hrun) Hin Hnum)
    as (Hspan & Hdig & Hslice & _).
  set (text := number_text (skipn (Z.to_nat (start_at t)) src)) in *.
  assert (Hlen : List.length text = Z.to_nat (end_at t - start_at t + 1))
    by (rewrite <- Hslice; apply slice_length).
  assert (Hnth : forall k, start_at t <= k <= end_at t ->
                           nth (Z.to_nat (k - start_at t)) text NUL = char_at src k)
    by (intros k Hk; rewrite <- Hslice; now apply slice_nth).
  destruct (@number_text_dot (skipn (Z.to_nat (start_at t)) src)
              (Z.to_nat (i - start_at t))) as (Hpos & Hnext & Hbefore & Hafter).
  - rewrite <- char_at_unread by lia. exact Hdig.
  - fold text. lia.
  - fold text. rewrite Hnth by lia. exact Hdot.
  - fold text in Hnext, Hbefore, Hafter.
    split; [lia|].
    rewrite <- (Hnth (i - 1)), <- (Hnth (i + 1)) by lia.
    replace (Z.to_nat (i - 1 - start_at t)) with (Z.to_nat (i - start_at t) - 1)%nat by lia.
    replace (Z.to_nat (i + 1 - start_at t)) with (S (Z.to_nat (i - start_at t))) by lia.
    auto.
Qed.

Lemma dot_needs_digit_on_both_sides_witness :
  let src := list_ascii_of_string "3.5" in
  IS_DIGIT (char_at src (1 - 1)) = true /\ IS_DIGIT (char_at src (1 + 1)) = true.
Proof.
  intros src.
  refine (proj2 (proj1 dot_needs_digit_on_both_sides src
    [ {| type := TOKEN_NUMBER; literal := 3%float; start_at := 0; end_at := 2 |} ]
    {| type := TOKEN_NUMBER; literal := 3%float; start_at := 0; end_at := 2 |}
    1 _ _ _ _ _)).
  - vm_compute. reflexivity.
  - simpl. left. reflexivity.
  - reflexivity.
  - simpl. lia.
  - reflexivity.
Defined.

(** C3: on a minus sign the scanner stores a unary minus exactly when no token
    is stored yet or the last stored token is neither a number nor a right
    parenthesis, and a binary minus otherwise; so ["-5 + 3"] is -2, ["3 - -5"]
    is 8, ["(-5)"] is -5 and ["3-5"] is -2. *)
Theorem minus_sign_classification :
  (forall scanner : Scanner,
     scanner_peek scanner = "-"%char ->
     scanner_scan_token scanner =
     Return (scanner_add_token (snd (scanner_advance scanner))
               (if unary_position (last_type (tokens scanner))
                then TOKEN_UMINUS else TOKEN_MINUS))) /\
  (forall (src : list ascii) (tl before after : TokenList) (t : Token),
     scanner_execute (scanner_init src) = Some (Return tl) ->
     tl = before ++ t :: after ->
     char_at src (start_at t) = "-"%char ->
     type t = (if unary_position (last_type before)
               then TOKEN_UMINUS else TOKEN_MINUS)) /\
  process "-5 + 3" = Some (Return (-2)%float) /\
  process "3 - -5" = Some (Return 8%float) /\
  process "(-5)" = Some (Return (-5)%float) /\
  process "3-5" = Some (Return (-2)%float).
Proof.
  split; [|split; [|repeat split; vm_compute; reflexivity]].
  - intros scanner Hpeek. unfold scanner_scan_token.
    unfold scanner_peek in Hpeek. cbn [scanner_advance snd]. rewrite Hpeek.
    cbn [Ascii.eqb Bool.eqb tokens]. rewrite minus_test.
    destruct (unary_position (last_type (tokens scanner))); reflexivity.
  - intros src tl before after t Hrun -> Hc.
    pose proof (returned_tokens_scanned src Hrun) as Hsc.
    destruct (scanned_split Hsc before t after eq_refl) as (_ & _ & _ & Hty).
    destruct (type t); cbn iota zeta in Hty;
      try (destruct Hty as (_ & Hch & Hrule); rewrite Hch in Hc; simpl in Hc;
           try discriminate; rewrite Hrule; reflexivity).
    destruct Hty as (_ & Hdig & _). rewrite Hc in Hdig. discriminate.
Qed.

Lemma minus_sign_classification_witness :
  let scanner := {| source := list_ascii_of_string "3 - -5";
                    tokens := [ {| type := TOKEN_NUMBER; literal := 3%float;
                                   start_at := 0; end_at := 0 |} ];
                    start := 2; current := 2 |} in
  scanner_peek scanner = "-"%char /\
  option_map type (items (match scanner_scan_token scanner with
                          | Return s => tokens s
                          | Exit _ => []
                          end) 1) = Some TOKEN_MINUS.
Proof.
  intros scanner. split; [reflexivity|].
  rewrite (proj1 minus_sign_classification scanner eq_refl).
  reflexivity.
Defined.

(** Over spaces the loop stores nothing. *)
Lemma scanner_loop_spaces (rest tail : list ascii) :
  Forall (fun c => c = " "%char) rest ->
  is_terminator (hd NUL tail) = true ->
  forall (fuel : nat) (scanner : Scanner),
  0 <= current scanner ->
  unread scanner = rest ++ tail ->
  (List.length rest < fuel)%nat ->
  exists scanner', scanner_loop fuel scanner = Some (Return scanner') /\
                   tokens scanner' = tokens scanner.
Proof.
  intros Hsp Htail. induction Hsp as [|c rest Hc Hsp IH];
    intros fuel scanner Hcur Hun Hfuel;
    (destruct fuel as [|fuel]; [simpl in Hfuel; lia|]); cbn [scanner_loop];
    unfold scanner_is_at_end; fold (is_terminator (char_at (source scanner) (current scanner)));
    rewrite char_at_unread by assumption; fold (unread scanner); rewrite Hun.
  - simpl app. rewrite Htail. eauto.
  - subst c. cbn [app hd]. change (is_terminator " ") with false. cbv iota.
    unfold scanner_scan_token. cbn [scanner_advance set_start source current].
    rewrite char_at_unread by assumption. fold (unread scanner). rewrite Hun.
    cbn [app hd]. change (Ascii.eqb " " "+") with false.
    change (Ascii.eqb " " "-") with false. change (Ascii.eqb " " "*") with false.
    change (Ascii.eqb " " "/") with false. change (Ascii.eqb " " "(") with false.
    change (Ascii.eqb " " ")") with false. change (Ascii.eqb " " " ") with true.
    cbv iota.
    match goal with
    | |- context [scanner_loop fuel ?s] =>
        destruct (IH fuel s) as (scanner' & Hloop & Htok)
    end.
    + cbn [current]. lia.
    + unfold unread in *. cbn [current source].
      rewrite skipn_next by assumption. rewrite Hun. reflexivity.
    + simpl in Hfuel. lia.
    + exists scanner'. split; [exact Hloop | exact Htok].
Qed.

(** C8: a line that is empty or holds only spaces scans to no token, and the
    evaluation of no token exits with "Cannot evaluate the expression to the
    concrete value", the evaluation error for a value stack that does not hold
    exactly one value. *)
Theorem blank_line_cannot_be_evaluated (src : list ascii) :
  Forall (fun c => c = " "%char) src ->
  scanner_execute (scanner_init src) = Some (Return []) /\
  eval_by_shunting_yard [] = Exit CannotEvaluate /\
  exit_code CannotEvaluate = ERROR_EVALUATION /\
  process_source src = Some (Exit CannotEvaluate).
Proof.
  intros Hsp.
  assert (Hscan : scanner_execute (scanner_init src) = Some (Return [])).
  { unfold scanner_execute.
    destruct (@scanner_loop_spaces src [] Hsp eq_refl
                (S (List.length (unread (scanner_init src)))) (scanner_init src))
      as (scanner' & Hloop & Htok).
    - simpl; lia.
    - unfold unread; simpl. now rewrite app_nil_r.
    - unfold unread; simpl. lia.
    - rewrite Hloop. simpl in Htok. rewrite Htok. reflexivity. }
  repeat split; try reflexivity; try assumption.
  unfold process_source. rewrite Hscan. reflexivity.
Qed.

Lemma blank_line_cannot_be_evaluated_witness :
  process "   " = Some (Exit CannotEvaluate).
Proof.
  apply (blank_line_cannot_be_evaluated (src := list_ascii_of_string "   ")).
  repeat constructor.
Defined.

(** C1, which the code breaks: [scanner_number] copies two characters from the
    start of the number whatever its length (its [end_at] is
    [token->start_at + 1], not [token->end_at]), so the value stored for every
    number token is [atof] of the first two characters at its span;
    ["100"] is stored as 10 where the text of its span parses to 100, and
    ["3.5"] as 3 where the text parses to 3.5. *)
Theorem number_value_parsed_from_two_characters :
  (forall (src : list ascii) (tl : TokenList) (t : Token),
     scanner_execute (scanner_init src) = Some (Return tl) ->
     In t tl -> type t = TOKEN_NUMBER ->
     literal t = atof (c_string (literal_buffer src (start_at t)))) /\
  scan "100" = Some (Return [ {| type := TOKEN_NUMBER; literal := 10%float;
                                 start_at := 0; end_at := 2 |} ]) /\
  atof (slice (list_ascii_of_string "100") 0 2) = 100%float /\
  (10 =? 100)%float = false /\
  scan "3.5" = Some (Return [ {| type := TOKEN_NUMBER; literal := 3%float;
                                 start_at := 0; end_at := 2 |} ]) /\
  atof (slice (list_ascii_of_string "3.5") 0 2) = 3.5%float /\
  (3 =? 3.5)%float = false /\
  process "100" = Some (Return 10%float).
Proof.
  split; [|repeat split; vm_compute; reflexivity].
  intros src tl t Hrun Hin Hnum.
  apply (@scanned_number src tl t (returned_tokens_scanned src Hrun) Hin Hnum).
Qed.

Lemma number_value_parsed_from_two_characters_witness :
  literal {| type := TOKEN_NUMBER; literal := 12%float; start_at := 4; end_at := 8 |}
  = atof (c_string (literal_buffer (list_ascii_of_string "2 * 12.75") 4)).
Proof.
  refine (proj1 number_value_parsed_from_two_characters
    (list_ascii_of_string "2 * 12.75")
    [ {| type := TOKEN_NUMBER; literal := 2%float; start_at := 0; end_at := 0 |};
      {| type := TOKEN_STAR; literal := unset_literal; start_at := 2; end_at := 2 |};
      {| type := TOKEN_NUMBER; literal := 12%float; start_at := 4; end_at := 8 |} ]
    _ _ _ _).
  - vm_compute. reflexivity.
  - simpl. right. right. left. reflexivity.
  - reflexivity.
Defined.

(** * The evaluator, loop by loop *)

Lemma take_drop_while (A : Type) (f : A -> bool) (l : list A) :
  take_while f l ++ drop_while f l = l.
Proof.
  induction l as [|a l IH]; simpl; [reflexivity|].
  destruct (f a); simpl; [f_equal; exact IH | reflexivity].
Qed.

(** Both inner loops pop the longest run of operators that passes their test
    and reduce it from the top down. *)
Lemma reduce_while_binding_spec (p : Z) (ops : list Token) (vals : list float) :
  reduce_while_binding p ops vals =
  (vals' <- reduce_all (take_while (gives_way p) ops) vals ;;
   Return (drop_while (gives_way p) ops, vals')).
Proof.
  revert vals; induction ops as [|top below IH]; intros vals; simpl; [reflexivity|].
  unfold gives_way at 1 3.
  destruct (negb (TokenType_eqb (type top) TOKEN_LEFT_PAREN)
            && (TOKEN_TYPE_PRECEDENCE (type top) >=? p)); simpl; [|reflexivity].
  destruct (reduce top vals) as [vals1|f]; simpl; [apply IH | reflexivity].
Qed.

Lemma reduce_until_left_paren_spec (ops : list Token) (vals : list float) :
  reduce_until_left_paren ops vals =
  (vals' <- reduce_all (take_while not_left_paren ops) vals ;;
   Return (drop_while not_left_paren ops, vals')).
Proof.
  revert vals; induction ops as [|top below IH]; intros vals; simpl; [reflexivity|].
  unfold not_left_paren at 1 3.
  destruct (negb (TokenType_eqb (type top) TOKEN_LEFT_PAREN)); simpl; [|reflexivity].
  destruct (reduce top vals) as [vals1|f]; simpl; [apply IH | reflexivity].
Qed.

Lemma TokenType_eqb_eq (a b : TokenType) : TokenType_eqb a b = true <-> a = b.
Proof. destruct a, b; simpl; split; congruence. Qed.

Lemma take_while_all (A : Type) (f : A -> bool) (l : list A) :
  Forall (fun a => f a = true) l -> take_while f l = l /\ drop_while f l = [].
Proof.
  induction 1 as [|a l Ha Hl [IH1 IH2]]; simpl; [auto|].
  rewrite Ha, IH1, IH2. auto.
Qed.

Lemma take_while_stop (A : Type) (f : A -> bool) (above : list A) (a : A) (below : list A) :
  Forall (fun a => f a = true) above -> f a = false ->
  take_while f (above ++ a :: below) = above /\
  drop_while f (above ++ a :: below) = a :: below.
Proof.
  induction 1 as [|b above Hb Habove IH]; intros Ha; simpl.
  - rewrite Ha. auto.
  - rewrite Hb. destruct (IH Ha) as [-> ->]. auto.
Qed.

(** * The claims about the evaluator *)

(** C2: an operator token of precedence [p] first pops and reduces the
    operators of the stack for as long as the stack is not empty, its top is
    no left parenthesis and the precedence of the top is at least [p], and is
    then pushed; so ["8 - 3 - 2"] is 3 (and not 7), ["2 + 3 * 4"] is 14 and
    ["(2 + 3) * 4"] is 20. *)
Theorem operator_pops_tighter_then_pushes :
  (forall (token : Token) (ops : list Token) (vals : list float),
     is_operator (type token) = true ->
     let p := TOKEN_TYPE_PRECEDENCE (type token) in
     eval_token token ops vals =
     (vals' <- reduce_all (take_while (gives_way p) ops) vals ;;
      ops' <- push_operator token (drop_while (gives_way p) ops) ;;
      Return (ops', vals'))) /\
  process "8 - 3 - 2" = Some (Return 3%float) /\
  (3 =? 7)%float = false /\
  process "2 + 3 * 4" = Some (Return 14%float) /\
  process "(2 + 3) * 4" = Some (Return 20%float).
Proof.
  split; [|repeat split; vm_compute; reflexivity].
  intros token ops vals Hop p. unfold eval_token. fold p.
  rewrite reduce_while_binding_spec.
  destruct (type token) eqn:Hty; try discriminate; simpl;
    (destruct (reduce_all (take_while (gives_way p) ops) vals) as [vals'|f];
     simpl; [|reflexivity];
     destruct (push_operator token (drop_while (gives_way p) ops)); reflexivity).
Qed.

Lemma operator_pops_tighter_then_pushes_witness :
  let minus := {| type := TOKEN_MINUS; literal := unset_literal;
                  start_at := 2; end_at := 2 |} in
  let minus' := {| type := TOKEN_MINUS; literal := unset_literal;
                   start_at := 6; end_at := 6 |} in
  is_operator (type minus') = true /\
  eval_token minus' [minus] [3%float; 8%float] = Return ([minus'], [5%float]).
Proof.
  intros minus minus'. split; [reflexivity|].
  rewrite (proj1 operator_pops_tighter_then_pushes minus' [minus]
             [3%float; 8%float] eq_refl).
  vm_compute. reflexivity.
Defined.

Lemma reduce_remaining_spec (ops : list Token) (vals : list float) :
  reduce_remaining ops vals =
  (vals' <- reduce_all (take_while not_left_paren ops) vals ;;
   match drop_while not_left_paren ops with
   | [] => Return ([], vals')
   | paren :: _ => Exit (MismatchedLeftParen (start_at paren))
   end).
Proof.
  revert vals; induction ops as [|top below IH]; intros vals; simpl; [reflexivity|].
  unfold not_left_paren at 1 3.
  destruct (TokenType_eqb (type top) TOKEN_LEFT_PAREN); simpl; [reflexivity|].
  destruct (reduce top vals) as [vals1|f]; simpl; [apply IH | reflexivity].
Qed.

Lemma no_left_paren_passes (ops : list Token) :
  Forall (fun t => type t <> TOKEN_LEFT_PAREN) ops ->
  Forall (fun t => not_left_paren t = true) ops.
Proof.
  apply Forall_impl. intros t Ht. unfold not_left_paren.
  destruct (TokenType_eqb (type t) TOKEN_LEFT_PAREN) eqn:E; [|reflexivity].
  apply TokenType_eqb_eq in E. contradiction.
Qed.

(** C4 as stated fails on ["(1 +"]: the left parenthesis is still on the
    operator stack when the tokens are used up, yet the exit is "Values stack
    is empty", from the reduction of the [+] above the parenthesis. *)
Lemma left_paren_behind_failed_reduction :
  exists (tl ops : list Token) (vals : list float) (paren : Token),
    scan "(1 +" = Some (Return tl) /\
    eval_tokens tl [] [] = Return (ops, vals) /\
    In paren ops /\ type paren = TOKEN_LEFT_PAREN /\
    eval_by_shunting_yard tl = Exit ValuesStackEmpty /\
    process "(1 +" = Some (Exit ValuesStackEmpty).
Proof.
  exists [ {| type := TOKEN_LEFT_PAREN; literal := unset_literal; start_at := 0; end_at := 0 |};
           {| type := TOKEN_NUMBER; literal := 1%float; start_at := 1; end_at := 1 |};
           {| type := TOKEN_PLUS; literal := unset_literal; start_at := 3; end_at := 3 |} ].
  exists [ {| type := TOKEN_PLUS; literal := unset_literal; start_at := 3; end_at := 3 |};
           {| type := TOKEN_LEFT_PAREN; literal := unset_literal; start_at := 0; end_at := 0 |} ].
  exists [1%float].
  exists {| type := TOKEN_LEFT_PAREN; literal := unset_literal; start_at := 0; end_at := 0 |}.
  repeat split; try (vm_compute; reflexivity).
  simpl. right. left. reflexivity.
Qed.

(** C10 as stated fails on ["2 - --5"]: two unary minuses follow each other,
    and the evaluation returns 3. *)
Lemma double_unary_minus_can_return :
  exists tl : TokenList,
    scan "2 - --5" = Some (Return tl) /\
    map type tl = [TOKEN_NUMBER; TOKEN_MINUS; TOKEN_UMINUS; TOKEN_UMINUS; TOKEN_NUMBER] /\
    eval_by_shunting_yard tl = Return 3%float /\
    process "2 - --5" = Some (Return 3%float).
Proof.
  exists [ {| type := TOKEN_NUMBER; literal := 2%float; start_at := 0; end_at := 0 |};
           {| type := TOKEN_MINUS; literal := unset_literal; start_at := 2; end_at := 2 |};
           {| type := TOKEN_UMINUS; literal := unset_literal; start_at := 4; end_at := 4 |};
           {| type := TOKEN_UMINUS; literal := unset_literal; start_at := 5; end_at := 5 |};
           {| type := TOKEN_NUMBER; literal := 5%float; start_at := 6; end_at := 6 |} ].
  repeat split; vm_compute; reflexivity.
Qed.

(** C10, amended: when the second of two consecutive unary minuses is met
    with the first on top of the operator stack and the value stack empty, as
    for every token sequence that starts with two unary minuses (["--5"]), the
    evaluation exits with "Values stack is empty": the precedence 4 of the
    second is matched by the first under [>=], so the first is popped and
    reduced before any operand has been pushed. *)
Theorem leading_double_unary_minus_underflows :
  (forall (first second : Token) (below : list Token),
     type first = TOKEN_UMINUS -> type second = TOKEN_UMINUS ->
     eval_token second (first :: below) [] = Exit ValuesStackEmpty) /\
  (forall (first second : Token) (rest : TokenList),
     type first = TOKEN_UMINUS -> type second = TOKEN_UMINUS ->
     eval_by_shunting_yard (first :: second :: rest) = Exit ValuesStackEmpty) /\
  exit_code ValuesStackEmpty = ERROR_EVALUATION /\
  process "--5" = Some (Exit ValuesStackEmpty).
Proof.
  assert (Hstep : forall first second below,
            type first = TOKEN_UMINUS -> type second = TOKEN_UMINUS ->
            eval_token second (first :: below) [] = Exit ValuesStackEmpty).
  { intros first second below H1 H2. unfold eval_token. rewrite H2. simpl.
    rewrite H1. reflexivity. }
  split; [exact Hstep|]. split; [|split; [reflexivity | vm_compute; reflexivity]].
  intros first second rest H1 H2.
  unfold eval_by_shunting_yard, eval_from. cbn [eval_tokens].
  assert (Hfirst : eval_token first [] [] = Return ([first], [])).
  { unfold eval_token. rewrite H1. reflexivity. }
  rewrite Hfirst. cbn [bind]. rewrite (Hstep first second [] H1 H2). reflexivity.
Qed.

Lemma leading_double_unary_minus_underflows_witness :
  let minus := {| type := TOKEN_UMINUS; literal := unset_literal;
                  start_at := 0; end_at := 0 |} in
  let minus' := {| type := TOKEN_UMINUS; literal := unset_literal;
                   start_at := 1; end_at := 1 |} in
  let five := {| type := TOKEN_NUMBER; literal := 5%float;
                 start_at := 2; end_at := 2 |} in
  eval_by_shunting_yard [minus; minus'; five] = Exit ValuesStackEmpty.
Proof.
  intros minus minus' five.
  apply (proj1 (proj2 leading_double_unary_minus_underflows) minus minus' [five]);
    reflexivity.
Defined.

(** ** Division by zero *)

Lemma zero_divisor (divisor : float) :
  is_zero divisor = true -> exists s, Prim2SF divisor = S754_zero s.
Proof.
  unfold is_zero. rewrite FloatAxioms.eqb_spec.
  change (Prim2SF 0%float) with (S754_zero false).
  intros H.
  destruct (Prim2SF divisor) as [s|s| |s m e]; try destruct s;
    try discriminate H; eauto.
Qed.

Lemma infinity_or_nan (x : float) :
  (exists s, Prim2SF x = S754_infinity s) \/ Prim2SF x = S754_nan ->
  is_infinity x = true \/ is_nan x = true.
Proof.
  intros [[s Hx]|Hx].
  - left. unfold is_infinity. rewrite FloatAxioms.eqb_spec, abs_spec, Hx.
    reflexivity.
  - right. unfold is_nan. rewrite FloatAxioms.eqb_spec, Hx. reflexivity.
Qed.

Lemma quotient_by_zero (dividend divisor : float) :
  is_zero divisor = true ->
  is_infinity (dividend / divisor) = true \/ is_nan (dividend / divisor) = true.
Proof.
  intros Hz. destruct (@zero_divisor divisor Hz) as [s Hs].
  apply infinity_or_nan. rewrite div_spec, Hs. unfold SF64div, SFdiv.
  destruct (Prim2SF dividend); eauto.
Qed.

(** C7: reducing a division whose right operand is zero, on a value stack
    that fits its 1024 slots, raises no error; it pushes the quotient of the
    binary64 division, which is an infinity or a NaN, and ["1 / 0"] evaluates
    to positive infinity. *)
Theorem division_by_zero_is_no_error :
  (forall (operator : Token) (dividend divisor : float) (below : list float),
     type operator = TOKEN_SLASH ->
     is_zero divisor = true ->
     shy_count (divisor :: dividend :: below) <= STACK_SIZE_SHY_VALUES ->
     reduce operator (divisor :: dividend :: below)
       = Return ((dividend / divisor)%float :: below) /\
     Prim2SF (dividend / divisor) = SF64div (Prim2SF dividend) (Prim2SF divisor) /\
     (is_infinity (dividend / divisor) = true \/
      is_nan (dividend / divisor) = true)) /\
  process "1 / 0" = Some (Return infinity).
Proof.
  split; [|vm_compute; reflexivity].
  intros operator dividend divisor below Hty Hz Hroom.
  split; [|split; [apply div_spec | now apply quotient_by_zero]].
  unfold reduce, evaluate. rewrite Hty. cbn [pop_value bind].
  unfold push_value, shy_count, STACK_SIZE_SHY_VALUES in *.
  cbn [List.length] in Hroom.
  destruct (Z.geb_spec (Z.of_nat (List.length below)) 1024); [lia | reflexivity].
Qed.

Lemma division_by_zero_is_no_error_witness :
  let slash := {| type := TOKEN_SLASH; literal := unset_literal;
                  start_at := 2; end_at := 2 |} in
  reduce slash [0%float; 1%float] = Return [infinity].
Proof.
  intros slash.
  apply (proj1 division_by_zero_is_no_error slash 1%float 0%float []).
  - reflexivity.
  - reflexivity.
  - vm_compute. discriminate.
Defined.

(** * Well-formed expressions *)

Section WellFormed.

Lemma pending_binary_app (a b : list Token) :
  pending_binary (a ++ b) = (pending_binary a + pending_binary b)%nat.
Proof. induction a as [|t a IH]; simpl; [reflexivity | rewrite IH; lia]. Qed.

Lemma push_operator_room (token : Token) (ops : list Token) :
  (List.length ops < 1024)%nat -> push_operator token ops = Return (token :: ops).
Proof.
  intros H. unfold push_operator, shy_count, STACK_SIZE_SHY_OPERATORS.
  destruct (Z.geb_spec (Z.of_nat (List.length ops)) 1024); [lia | reflexivity].
Qed.

Lemma push_value_room (value : float) (vals : list float) :
  (List.length vals < 1024)%nat -> push_value value vals = Return (value :: vals).
Proof.
  intros H. unfold push_value, shy_count, STACK_SIZE_SHY_VALUES.
  destruct (Z.geb_spec (Z.of_nat (List.length vals)) 1024); [lia | reflexivity].
Qed.

Lemma push_operator_full (token : Token) (ops : list Token) :
  (1024 <= List.length ops)%nat -> push_operator token ops = Exit OperatorsStackOverflowed.
Proof.
  intros H. unfold push_operator, shy_count, STACK_SIZE_SHY_OPERATORS.
  destruct (Z.geb_spec (Z.of_nat (List.length ops)) 1024); [reflexivity | lia].
Qed.

Lemma push_value_full (value : float) (vals : list float) :
  (1024 <= List.length vals)%nat -> push_value value vals = Exit ValuesStackOverflowed.
Proof.
  intros H. unfold push_value, shy_count, STACK_SIZE_SHY_VALUES.
  destruct (Z.geb_spec (Z.of_nat (List.length vals)) 1024); [reflexivity | lia].
Qed.

(** With one value more than there are binary operators to serve, an
    operator reduces, and the count goes down with it. *)
Lemma reduce_ready (t : Token) (vals : list float) (n : nat) :
  is_operator (type t) = true ->
  List.length vals = S ((if is_binary (type t) then 1 else 0) + n) ->
  (List.length vals <= 1024)%nat ->
  exists vals', reduce t vals = Return vals' /\ List.length vals' = S n.
Proof.
  intros Hop Hlen Hroom. unfold reduce, evaluate.
  destruct vals as [|operand vals]; [discriminate|].
  destruct (type t); try discriminate; cbn [is_binary] in Hlen; cbn [pop_value bind];
    try (destruct vals as [|lhs vals]; [simpl in Hlen; lia|]; cbn [pop_value bind]);
    simpl in Hlen, Hroom;
    (rewrite push_value_room by lia); eexists; (split; [reflexivity | simpl; lia]).
Qed.

Lemma reduce_all_ready (popped : list Token) :
  operators_only popped ->
  forall (vals : list float) (n : nat),
  List.length vals = S (pending_binary popped + n) ->
  (List.length vals <= 1024)%nat ->
  exists vals', reduce_all popped vals = Return vals' /\ List.length vals' = S n.
Proof.
  induction 1 as [|t popped Ht Hpopped IH]; intros vals n Hlen Hroom; simpl.
  - eexists; split; [reflexivity | simpl in Hlen; lia].
  - simpl in Hlen.
    destruct (@reduce_ready t vals (pending_binary popped + n) Ht) as (vals1 & Hred & Hlen1);
      [lia | lia |].
    rewrite Hred. cbn [bind]. apply IH; lia.
Qed.

Lemma take_while_above (A : Type) (f : A -> bool) (above rest : list A) :
  match rest with a :: _ => f a = false | [] => True end ->
  take_while f (above ++ rest) = take_while f above /\
  drop_while f (above ++ rest) = drop_while f above ++ rest.
Proof.
  intros Hrest. induction above as [|a above [IH1 IH2]]; simpl.
  - destruct rest as [|a rest]; [auto|]. simpl. rewrite Hrest. auto.
  - destruct (f a); [rewrite IH1, IH2|]; auto.
Qed.

Lemma operators_only_split (A : Type) (f : Token -> bool) (ops : list Token) :
  operators_only ops ->
  operators_only (take_while f ops) /\ operators_only (drop_while f ops).
Proof.
  unfold operators_only. intros H.
  rewrite <- (take_drop_while f ops) in H. now apply Forall_app in H.
Qed.

Lemma operator_not_left_paren (ops : list Token) :
  operators_only ops -> Forall (fun t => type t <> TOKEN_LEFT_PAREN) ops.
Proof.
  apply Forall_impl. intros t Ht Heq. rewrite Heq in Ht. discriminate.
Qed.

Lemma paren_stops (p : Z) (rest : list Token) :
  paren_or_bottom rest ->
  match rest with a :: _ => gives_way p a = false | [] => True end.
Proof.
  destruct rest as [|a rest]; [auto|]. simpl. intros Ha.
  unfold gives_way. rewrite Ha. reflexivity.
Qed.

Lemma well_formed_nonempty (e : TokenList) : well_formed e -> e <> [].
Proof.
  induction 1; try discriminate.
  destruct e1; [contradiction | discriminate].
Qed.

Lemma no_double_uminus_app (e1 e2 : TokenList) :
  no_double_uminus (e1 ++ e2) = true ->
  no_double_uminus e1 = true /\ no_double_uminus e2 = true.
Proof.
  induction e1 as [|t e1 IH]; simpl; [auto|].
  intros H. apply andb_true_iff in H. destruct H as [H1 H2].
  destruct (IH H2) as [IH1 IH2]. split; [|assumption].
  rewrite IH1, andb_true_r.
  destruct (TokenType_eqb (type t) TOKEN_UMINUS); [|reflexivity].
  destruct e1 as [|t1 e1]; [reflexivity | exact H1].
Qed.

Lemma eval_tokens_app (e1 e2 : TokenList) (ops : list Token) (vals : list float) :
  eval_tokens (e1 ++ e2) ops vals =
  ('(ops', vals') <- eval_tokens e1 ops vals ;; eval_tokens e2 ops' vals').
Proof.
  revert ops vals; induction e1 as [|t e1 IH]; intros ops vals; simpl.
  - reflexivity.
  - destruct (eval_token t ops vals) as [[ops1 vals1]|f]; simpl; [apply IH | reflexivity].
Qed.

(** What one token does to stacks that are ready for it. *)

Lemma eval_number (t : Token) (ops : list Token) (vals : list float) :
  type t = TOKEN_NUMBER ->
  eval_token t ops vals =
  (vals' <- push_value (literal t) vals ;; Return (ops, vals')).
Proof. intros Hty. unfold eval_token. rewrite Hty. reflexivity. Qed.

Lemma eval_left_paren (t : Token) (ops : list Token) (vals : list float) :
  type t = TOKEN_LEFT_PAREN ->
  eval_token t ops vals =
  (ops' <- push_operator t ops ;; Return (ops', vals)).
Proof.
  intros Hty. unfold eval_token. rewrite Hty. simpl.
  destruct (push_operator t ops); reflexivity.
Qed.

Lemma eval_uminus (t : Token) (top rest : list Token) (vals : list float) :
  type t = TOKEN_UMINUS ->
  operators_only top -> paren_or_bottom rest ->
  starts_with_uminus top = false ->
  eval_token t (top ++ rest) vals =
  (ops' <- push_operator t (top ++ rest) ;; Return (ops', vals)).
Proof.
  intros Hty Htop Hrest Hstart. unfold eval_token. rewrite Hty.
  cbn [TokenType_eqb TOKEN_TYPE_PRECEDENCE Z.gtb Z.compare].
  assert (Hloop : reduce_while_binding 4 (top ++ rest) vals = Return (top ++ rest, vals)).
  { destruct top as [|a top]; simpl.
    - destruct rest as [|a rest]; [reflexivity|]. simpl in Hrest |- *.
      rewrite Hrest. reflexivity.
    - inversion Htop as [|? ? Ha _]; subst. simpl in Hstart.
      destruct (type a); try discriminate; reflexivity. }
  rewrite Hloop. cbn [bind].
  destruct (push_operator t (top ++ rest)); reflexivity.
Qed.

Lemma eval_binary (t : Token) (top rest : list Token) (vals : list float) :
  is_binary (type t) = true ->
  operators_only top -> paren_or_bottom rest ->
  List.length vals = S (pending_binary (top ++ rest)) ->
  (List.length vals <= 1024)%nat ->
  exists kept vals',
    eval_token t (top ++ rest) vals =
      (ops' <- push_operator t (kept ++ rest) ;; Return (ops', vals')) /\
    operators_only kept /\
    List.length vals' = S (pending_binary (kept ++ rest)) /\
    (List.length kept <= List.length top)%nat /\
    (List.length vals' <= List.length vals)%nat.
Proof.
  intros Hbin Htop Hrest Hlen Hvroom.
  set (p := TOKEN_TYPE_PRECEDENCE (type t)).
  destruct (@take_while_above _ (gives_way p) top rest (paren_stops p rest Hrest))
    as [Htake Hdrop].
  destruct (@operators_only_split Token (gives_way p) top Htop) as [Hpopped Hkept].
  pose proof (take_drop_while (gives_way p) top) as Hsplit.
  set (popped := take_while (gives_way p) top) in *.
  set (kept := drop_while (gives_way p) top) in *.
  assert (Hcount : pending_binary (top ++ rest)
                   = (pending_binary popped + pending_binary (kept ++ rest))%nat).
  { rewrite <- Hsplit, <- app_assoc. apply pending_binary_app. }
  destruct (@reduce_all_ready popped Hpopped vals (pending_binary (kept ++ rest)))
    as (vals' & Hred & Hlen'); [lia | lia |].
  assert (Hsize : List.length top = (List.length popped + List.length kept)%nat)
    by (rewrite <- Hsplit; apply length_app).
  exists kept, vals'. repeat split; try assumption; try lia.
  unfold eval_token. fold p.
  assert (Hp : (p >? 0) = true) by (unfold p; destruct (type t); try discriminate; reflexivity).
  rewrite Hp, reduce_while_binding_spec, Htake, Hdrop, Hred. cbn [bind].
  destruct (push_operator t (kept ++ rest)); cbn [bind];
    destruct (type t); try discriminate; reflexivity.
Qed.

Lemma eval_right_paren (t paren : Token) (top below : list Token) (vals : list float) :
  type t = TOKEN_RIGHT_PAREN -> type paren = TOKEN_LEFT_PAREN ->
  operators_only top ->
  List.length vals = S (pending_binary (top ++ paren :: below)) ->
  (List.length vals <= 1024)%nat ->
  exists vals',
    eval_token t (top ++ paren :: below) vals = Return (below, vals') /\
    List.length vals' = S (pending_binary below) /\
    (List.length vals' <= List.length vals)%nat.
Proof.
  intros Hty Hparen Htop Hlen Hvroom.
  destruct (@take_while_stop _ not_left_paren top paren below
              (no_left_paren_passes (operator_not_left_paren Htop)))
    as [Htake Hdrop]; [unfold not_left_paren; rewrite Hparen; reflexivity|].
  assert (Hcount : pending_binary (top ++ paren :: below)
                   = (pending_binary top + pending_binary below)%nat).
  { rewrite pending_binary_app. simpl. rewrite Hparen. reflexivity. }
  destruct (@reduce_all_ready top Htop vals (pending_binary below))
    as (vals' & Hred & Hlen'); [lia | lia |].
  exists vals'. repeat split; try assumption; try lia.
  unfold eval_token. rewrite Hty. simpl.
  rewrite reduce_until_left_paren_spec, Htake, Hdrop, Hred. reflexivity.
Qed.

Ltac sizes :=
  repeat first [rewrite length_app in * | progress cbn [List.length app] in *];
  lia.

Lemma starts_with_uminus_app (e1 e2 : TokenList) :
  e1 <> [] -> starts_with_uminus (e1 ++ e2) = starts_with_uminus e1.
Proof. destruct e1; [contradiction | reflexivity]. Qed.

Lemma overflowed_bind (A B : Type) (m : Outcome A) (k : A -> Outcome B) :
  overflowed m -> overflowed (bind m k).
Proof. intros [-> | ->]; [left | right]; reflexivity. Qed.

Lemma stack_room (n : nat) : (n <= 1024)%nat -> {(n < 1024)%nat} + {(1024 <= n)%nat}.
Proof. intros _. destruct (le_lt_dec 1024 n); [right | left]; assumption. Qed.

(** A well-formed expression met when an operand is expected: unless a stack
    is full, the evaluator goes through all of its tokens, leaves the stack
    below the topmost left parenthesis alone, and ends with one operand more
    than the operators still pending need.  A stack can be full only when the
    tokens outnumber the free slots. *)
Lemma eval_well_formed (e : TokenList) :
  well_formed e ->
  forall (top rest : list Token) (vals : list float),
  no_double_uminus e = true ->
  operators_only top -> paren_or_bottom rest ->
  List.length vals = pending_binary (top ++ rest) ->
  (starts_with_uminus e = true -> starts_with_uminus top = false) ->
  (List.length (top ++ rest) <= 1024)%nat ->
  (List.length vals <= 1024)%nat ->
  (exists top' vals',
     eval_tokens e (top ++ rest) vals = Return (top' ++ rest, vals') /\
     operators_only top' /\
     List.length vals' = S (pending_binary (top' ++ rest)) /\
     (List.length (top' ++ rest) <= 1024)%nat /\
     (List.length vals' <= 1024)%nat /\
     (List.length (top' ++ rest) <= List.length (top ++ rest) + List.length e)%nat /\
     (List.length vals' <= List.length vals + List.length e)%nat)
  \/
  (overflowed (eval_tokens e (top ++ rest) vals) /\
   (1024 < List.length (top ++ rest) + List.length e \/
    1024 < List.length vals + List.length e)%nat).
Proof.
  induction 1 as [t Hty | t e Hty He IH | e1 t e2 Hbin He1 IH1 He2 IH2
                  | l e r Hl Hr He IH];
    intros top rest vals Hnd Htop Hrest Hlen Hstart Hroom Hvroom.
  - (* a number *)
    cbn [eval_tokens]. rewrite eval_number by assumption.
    destruct (stack_room Hvroom) as [Hfree|Hfull].
    + left. rewrite push_value_room by assumption. cbn [bind eval_tokens].
      exists top, (literal t :: vals). repeat split; try assumption; sizes.
    + right. rewrite push_value_full by assumption.
      split; [right; reflexivity | sizes].
  - (* a negated expression *)
    cbn [eval_tokens].
    cbn [no_double_uminus] in Hnd. rewrite Hty in Hnd. cbn [TokenType_eqb andb] in Hnd.
    apply andb_true_iff in Hnd. destruct Hnd as [Hfirst Hnd].
    apply negb_true_iff in Hfirst.
    rewrite eval_uminus; try assumption;
      [|apply Hstart; simpl; rewrite Hty; reflexivity].
    destruct (stack_room Hroom) as [Hfree|Hfull].
    + rewrite push_operator_room by assumption. cbn [bind].
      destruct (IH (t :: top) rest vals)
        as [(top' & vals' & Hrun & Htop' & Hlen' & Hcap & Hvcap & Hsz & Hvsz)
           | [Hover Hmany]].
      * exact Hnd.
      * constructor; [rewrite Hty; reflexivity | assumption].
      * exact Hrest.
      * simpl. rewrite Hty. simpl. exact Hlen.
      * intros Hs. rewrite Hs in Hfirst. discriminate.
      * sizes.
      * exact Hvroom.
      * left. exists top', vals'. repeat split; try assumption; sizes.
      * right. split; [exact Hover | sizes].
    + right. rewrite push_operator_full by assumption.
      split; [left; reflexivity | sizes].
  - (* two expressions around a binary operator *)
    destruct (no_double_uminus_app e1 (t :: e2) Hnd) as [Hnd1 Hnd2].
    simpl in Hnd2. apply andb_true_iff in Hnd2. destruct Hnd2 as [_ Hnd2].
    rewrite eval_tokens_app.
    destruct (IH1 top rest vals Hnd1 Htop Hrest Hlen)
      as [(top1 & vals1 & Hrun1 & Htop1 & Hlen1 & Hcap1 & Hvcap1 & Hsz1 & Hvsz1)
         | [Hover Hmany]]; try assumption.
    { rewrite starts_with_uminus_app in Hstart by now apply well_formed_nonempty.
      exact Hstart. }
    2: { right. split; [now apply overflowed_bind | sizes]. }
    rewrite Hrun1. cbn [bind eval_tokens].
    destruct (@eval_binary t top1 rest vals1 Hbin Htop1 Hrest Hlen1 Hvcap1)
      as (kept & vals2 & Hstep & Hkept & Hlen2 & Hsz2 & Hvsz2).
    rewrite Hstep.
    assert (Hcap2 : (List.length (kept ++ rest) <= 1024)%nat) by sizes.
    destruct (stack_room Hcap2) as [Hfree|Hfull].
    + rewrite push_operator_room by assumption. cbn [bind].
      change (t :: kept ++ rest) with ((t :: kept) ++ rest).
      destruct (IH2 (t :: kept) rest vals2)
        as [(top' & vals' & Hrun & Htop' & Hlen' & Hcap & Hvcap & Hsz & Hvsz)
           | [Hover Hmany]].
      * exact Hnd2.
      * constructor; [|assumption]. destruct (type t); try discriminate; reflexivity.
      * exact Hrest.
      * simpl. rewrite Hbin. simpl. exact Hlen2.
      * intros _. simpl. destruct (type t); try discriminate; reflexivity.
      * sizes.
      * lia.
      * left. exists top', vals'. repeat split; try assumption; sizes.
      * right. split; [exact Hover | sizes].
    + right. rewrite push_operator_full by assumption.
      split; [left; reflexivity | sizes].
  - (* an expression in parentheses *)
    cbn [eval_tokens]. rewrite eval_left_paren by assumption.
    simpl in Hnd. apply andb_true_iff in Hnd. destruct Hnd as [_ Hnd].
    destruct (no_double_uminus_app e [r] Hnd) as [Hnd1 _].
    destruct (stack_room Hroom) as [Hfree|Hfull].
    + rewrite push_operator_room by assumption. cbn [bind].
      rewrite eval_tokens_app.
      destruct (IH [] (l :: top ++ rest) vals)
        as [(top1 & vals1 & Hrun1 & Htop1 & Hlen1 & Hcap1 & Hvcap1 & Hsz1 & Hvsz1)
           | [Hover Hmany]].
      * exact Hnd1.
      * constructor.
      * exact Hl.
      * simpl. rewrite Hl. simpl. exact Hlen.
      * reflexivity.
      * sizes.
      * exact Hvroom.
      * left. simpl app in Hrun1. rewrite Hrun1. cbn [bind eval_tokens].
        destruct (@eval_right_paren r l top1 (top ++ rest) vals1 Hr Hl Htop1 Hlen1 Hvcap1)
          as (vals2 & Hstep & Hlen2 & Hvsz2).
        rewrite Hstep. cbn [bind].
        exists top, vals2. repeat split; try assumption; sizes.
      * right. split; [now apply overflowed_bind | sizes].
    + right. rewrite push_operator_full by assumption.
      split; [left; reflexivity | sizes].
Qed.

End WellFormed.

(** * The claim about well-formed expressions *)

Lemma parens_around_number (ls : list Token) :
  forall (t : Token) (rs : list Token),
  Forall (fun l => type l = TOKEN_LEFT_PAREN) ls ->
  Forall (fun r => type r = TOKEN_RIGHT_PAREN) rs ->
  List.length ls = List.length rs ->
  type t = TOKEN_NUMBER ->
  well_formed (ls ++ t :: rs).
Proof.
  induction ls as [|l ls IH]; intros t rs Hls Hrs Hlen Ht.
  - destruct rs; [|discriminate]. now apply wf_number.
  - destruct rs as [|r0 rs0] using rev_ind; [discriminate|]. clear IHrs0.
    rewrite length_app in Hlen. simpl in Hlen.
    inversion Hls as [|? ? Hl Hls']; subst.
    apply Forall_app in Hrs. destruct Hrs as [Hrs0 Hr0].
    inversion Hr0 as [|? ? Hr _]; subst.
    change ((l :: ls) ++ t :: rs0 ++ [r0]) with (l :: (ls ++ (t :: rs0) ++ [r0])).
    rewrite app_assoc. apply wf_parens; try assumption.
    apply IH; try assumption. lia.
Qed.

Lemma nested_tokens_well_formed (depth : nat) : well_formed (nested_tokens depth).
Proof.
  unfold nested_tokens. apply parens_around_number.
  - apply Forall_forall. intros l Hin. apply in_map_iff in Hin.
    destruct Hin as (i & <- & _). reflexivity.
  - apply Forall_forall. intros r Hin. apply in_map_iff in Hin.
    destruct Hin as (i & <- & _). reflexivity.
  - now rewrite !length_map, !length_seq.
  - reflexivity.
Qed.

(** C5 as stated fails on the number one inside 1025 pairs of parentheses, a
    well-formed expression with balanced parentheses: the operator stack has
    1024 slots, and the evaluation exits with "Operators stack is overflowed"
    on the last left parenthesis.  Inside 1024 pairs it returns 1. *)
Lemma deep_nesting_overflows :
  scanner_execute (scanner_init (nested_source 1025))
    = Some (Return (nested_tokens 1025)) /\
  well_formed (nested_tokens 1025) /\
  eval_by_shunting_yard (nested_tokens 1025) = Exit OperatorsStackOverflowed /\
  process_source (nested_source 1025) = Some (Exit OperatorsStackOverflowed) /\
  process_source (nested_source 1024) = Some (Return 1%float).
Proof.
  split; [vm_compute; reflexivity|].
  split; [apply nested_tokens_well_formed|].
  split; [vm_compute; reflexivity|].
  split; vm_compute; reflexivity.
Qed.

(** C5, amended: for every well-formed expression (parentheses balanced) in
    which no unary minus directly follows another, the evaluation ends and
    either returns one number, leaving both the operator stack and the value
    stack empty, or exits because one of the two stacks of 1024 slots is
    full, which happens only to expressions of more than 1024 tokens. *)
Theorem well_formed_expression_evaluates (e : TokenList) :
  well_formed e ->
  no_double_uminus e = true ->
  (exists result : float,
     eval_from e [] [] = Return (result, ([], [])) /\
     eval_by_shunting_yard e = Return result)
  \/
  ((1024 < List.length e)%nat /\ overflowed (eval_by_shunting_yard e)).
Proof.
  intros Hwf Hnd.
  destruct (@eval_well_formed e Hwf [] [] [] Hnd)
    as [(top & vals & Hrun & Htop & Hlen & _ & Hvcap & _ & _) | [Hover Hmany]];
    try (simpl; auto; lia).
  { constructor. }
  - left. cbn [app] in Hrun. rewrite app_nil_r in Hrun, Hlen.
    destruct (@reduce_all_ready top Htop vals 0%nat) as (vals' & Hred & Hlen');
      [lia | lia |].
    destruct vals' as [|result [|? ?]]; try discriminate.
    assert (Hfrom : eval_from e [] [] = Return (result, ([], []))).
    { unfold eval_from. rewrite Hrun. cbn [bind].
      rewrite reduce_remaining_spec.
      destruct (@take_while_all _ not_left_paren top
                  (no_left_paren_passes (operator_not_left_paren Htop))) as [-> ->].
      rewrite Hred. reflexivity. }
    exists result. split; [exact Hfrom|].
    unfold eval_by_shunting_yard. rewrite Hfrom. reflexivity.
  - right. split; [simpl in Hmany; lia|].
    unfold eval_by_shunting_yard, eval_from.
    apply overflowed_bind. apply overflowed_bind. exact Hover.
Qed.

Lemma well_formed_expression_evaluates_witness :
  exists result : float,
    eval_from (nested_tokens 2) [] [] = Return (result, ([], [])).
Proof.
  destruct (@well_formed_expression_evaluates (nested_tokens 2))
    as [(result & Hfrom & _) | [Hmany _]].
  - apply nested_tokens_well_formed.
  - reflexivity.
  - exists result. exact Hfrom.
  - simpl in Hmany. lia.
Defined.

(** * Beyond the claims: the value the evaluator computes *)

Ltac lengths :=
  repeat first [rewrite length_app in * | progress cbn [List.length app] in *];
  lia.

Section Precedence.

Lemma reduce_all_app (a b : list Token) (vals : list float) :
  reduce_all (a ++ b) vals = (vals' <- reduce_all a vals ;; reduce_all b vals').
Proof.
  revert vals; induction a as [|t a IH]; intros vals; simpl; [reflexivity|].
  destruct (reduce t vals) as [vals1|f]; simpl; [apply IH | reflexivity].
Qed.

Lemma reduce_binary_value (t : Token) (lhs rhs : float) (vals : list float) :
  is_binary (type t) = true -> (List.length vals < 1024)%nat ->
  reduce t (rhs :: lhs :: vals) = Return (apply_binary (type t) lhs rhs :: vals).
Proof.
  intros Hbin Hroom. unfold reduce, evaluate. cbn [pop_value bind].
  destruct (type t); try discriminate; cbn [bind apply_binary];
    now rewrite push_value_room.
Qed.

Lemma reduce_uminus_value (t : Token) (operand : float) (vals : list float) :
  type t = TOKEN_UMINUS -> (List.length vals < 1024)%nat ->
  reduce t (operand :: vals) = Return ((- operand)%float :: vals).
Proof.
  intros Hty Hroom. unfold reduce, evaluate. rewrite Hty. cbn [pop_value bind].
  now rewrite push_value_room.
Qed.

Lemma eval_operator (t : Token) (ops : list Token) (vals : list float) :
  is_operator (type t) = true ->
  eval_token t ops vals =
  ('(ops1, vals1) <- reduce_while_binding (TOKEN_TYPE_PRECEDENCE (type t)) ops vals ;;
   ops2 <- push_operator t ops1 ;;
   Return (ops2, vals1)).
Proof.
  intros Hop. unfold eval_token.
  destruct (type t) eqn:Hty; try discriminate; simpl;
    (destruct (reduce_while_binding _ ops vals) as [[ops1 vals1]|f]; simpl;
     [|reflexivity]; destruct (push_operator t ops1); reflexivity).
Qed.

Lemma holds_back_stops (q : Z) (ops : list Token) (vals : list float) :
  holds_back q ops -> reduce_while_binding q ops vals = Return (ops, vals).
Proof.
  destruct ops as [|top below]; simpl; [reflexivity|].
  unfold gives_way. intros ->. reflexivity.
Qed.

Lemma holds_back_weaker (q q' : Z) (ops : list Token) :
  q' <= q -> holds_back q' ops -> holds_back q ops.
Proof.
  intros Hq. destruct ops as [|top below]; simpl; [auto|].
  unfold gives_way. intros H.
  apply andb_false_iff in H. apply andb_false_iff.
  destruct H as [H|H]; [left; exact H | right].
  destruct (Z.geb_spec (TOKEN_TYPE_PRECEDENCE (type top)) q');
    [discriminate|].
  destruct (Z.geb_spec (TOKEN_TYPE_PRECEDENCE (type top)) q); [lia | reflexivity].
Qed.

Lemma binds_at_least_weaker (q q' : Z) (pend : list Token) :
  q' <= q -> binds_at_least q pend -> binds_at_least q' pend.
Proof.
  intros Hq. apply Forall_impl. intros t [Hop Hp]. split; [assumption | lia].
Qed.

Lemma binds_at_least_gives_way (q : Z) (pend : list Token) :
  binds_at_least q pend -> Forall (fun t => gives_way q t = true) pend.
Proof.
  apply Forall_impl. intros t [Hop Hp]. unfold gives_way.
  destruct (Z.geb_spec (TOKEN_TYPE_PRECEDENCE (type t)) q); [|lia].
  destruct (type t); try discriminate; reflexivity.
Qed.

Lemma binds_at_least_operators (q : Z) (pend : list Token) :
  binds_at_least q pend -> operators_only pend.
Proof. apply Forall_impl. intros t [Hop _]. exact Hop. Qed.

(** The pending operators give way, the stack below them holds back. *)
Lemma pending_give_way (q : Z) (pend ops : list Token) :
  binds_at_least q pend -> holds_back q ops ->
  take_while (gives_way q) (pend ++ ops) = pend /\
  drop_while (gives_way q) (pend ++ ops) = ops.
Proof.
  intros Hpend Hops.
  destruct (@take_while_above _ (gives_way q) pend ops) as [Htake Hdrop].
  { destruct ops; [auto | exact Hops]. }
  destruct (@take_while_all _ (gives_way q) pend (binds_at_least_gives_way Hpend))
    as [Hall Hnone].
  rewrite Htake, Hdrop, Hall, Hnone. auto.
Qed.

Lemma eval_right_paren_value (r l : Token) (pend ops : list Token)
    (vals out : list float) :
  type r = TOKEN_RIGHT_PAREN -> type l = TOKEN_LEFT_PAREN ->
  operators_only pend ->
  reduce_all pend vals = Return out ->
  eval_token r (pend ++ l :: ops) vals = Return (ops, out).
Proof.
  intros Hr Hl Hpend Hred.
  destruct (@take_while_stop _ not_left_paren pend l ops
              (no_left_paren_passes (operator_not_left_paren Hpend)))
    as [Htake Hdrop]; [unfold not_left_paren; rewrite Hl; reflexivity|].
  unfold eval_token. rewrite Hr. simpl.
  rewrite reduce_until_left_paren_spec, Htake, Hdrop, Hred. reflexivity.
Qed.

Lemma parses_nonempty (q : Z) (e : TokenList) (v : float) :
  parses q e v -> (1 <= List.length e)%nat.
Proof.
  induction 1; simpl; try lia. rewrite length_app. simpl. lia.
Qed.

(** Tokens that parse at level [q], met on an operator stack that holds back
    at [q]: the evaluator keeps that stack, puts operators of precedence [q]
    or more on it, and the values it leaves reduce under these operators to
    the value of the expression on top of the values it found. *)
Lemma eval_parses (q : Z) (e : TokenList) (v : float) :
  parses q e v ->
  forall (ops : list Token) (vals : list float),
  holds_back q ops ->
  (List.length ops + List.length e <= 1024)%nat ->
  (List.length vals + List.length e <= 1024)%nat ->
  exists pend vals',
    eval_tokens e ops vals = Return (pend ++ ops, vals') /\
    binds_at_least q pend /\
    reduce_all pend vals' = Return (v :: vals) /\
    (List.length (pend ++ ops) <= List.length ops + List.length e)%nat /\
    (List.length vals' <= List.length vals + List.length e)%nat.
Proof.
  induction 1 as [t Hty | l e r v Hl Hr He IH | t e v Hty He IH
                  | e1 t e2 v1 v2 Hbin He1 IH1 He2 IH2 | q q' e v Hq He IH];
    intros ops vals Hback Hroom Hvroom.
  - (* a number *)
    cbn [eval_tokens]. rewrite eval_number by assumption.
    rewrite push_value_room by lengths. cbn [bind].
    exists [], (literal t :: vals). repeat split; try constructor; lengths.
  - (* parentheses *)
    cbn [eval_tokens]. rewrite eval_left_paren by assumption.
    rewrite push_operator_room by lengths. cbn [bind].
    rewrite eval_tokens_app.
    destruct (IH (l :: ops) vals) as (pend & vals' & Hrun & Hpend & Hred & Hsz & Hvsz).
    + simpl. unfold gives_way. rewrite Hl. reflexivity.
    + lengths.
    + lengths.
    + rewrite Hrun. cbn [bind eval_tokens].
      rewrite (@eval_right_paren_value r l pend ops vals' (v :: vals) Hr Hl
                 (@binds_at_least_operators 2 pend Hpend) Hred).
      cbn [bind]. exists [], (v :: vals).
      repeat split; try constructor; lengths.
  - (* a unary minus *)
    cbn [eval_tokens]. rewrite eval_operator by (rewrite Hty; reflexivity).
    rewrite Hty. cbn [TOKEN_TYPE_PRECEDENCE].
    rewrite holds_back_stops by assumption. cbn [bind].
    rewrite push_operator_room by lengths. cbn [bind].
    destruct (IH (t :: ops) vals) as (pend & vals' & Hrun & Hpend & Hred & Hsz & Hvsz).
    + simpl. unfold gives_way. rewrite Hty. reflexivity.
    + lengths.
    + lengths.
    + exists (pend ++ [t]), vals'. rewrite <- app_assoc. cbn [app].
      repeat split; try assumption; try lengths.
      * apply Forall_app. split; [now apply (binds_at_least_weaker (q := 5)); [lia|]|].
        constructor; [|constructor]. rewrite Hty. split; [reflexivity | simpl; lia].
      * rewrite reduce_all_app, Hred. cbn [bind reduce_all].
        rewrite reduce_uminus_value by (assumption || lengths). reflexivity.
  - (* a binary operator *)
    set (p := TOKEN_TYPE_PRECEDENCE (type t)) in *.
    assert (Hop : is_operator (type t) = true)
      by (destruct (type t); try discriminate; reflexivity).
    pose proof (parses_nonempty He2) as Hne2.
    rewrite eval_tokens_app.
    destruct (IH1 ops vals Hback) as (pend1 & vals1 & Hrun1 & Hpend1 & Hred1 & Hsz1 & Hvsz1);
      [lengths | lengths |].
    rewrite Hrun1. cbn [bind eval_tokens].
    rewrite eval_operator by assumption. fold p.
    rewrite reduce_while_binding_spec.
    destruct (@pending_give_way p pend1 ops Hpend1 Hback) as [-> ->].
    rewrite Hred1. cbn [bind].
    rewrite push_operator_room by lengths. cbn [bind].
    destruct (IH2 (t :: ops) (v1 :: vals)) as (pend2 & vals2 & Hrun2 & Hpend2 & Hred2 & Hsz2 & Hvsz2).
    + simpl. unfold gives_way. fold p.
      destruct (Z.geb_spec p (p + 1)); [lia|]. apply andb_false_r.
    + lengths.
    + lengths.
    + rewrite Hrun2. exists (pend2 ++ [t]), vals2. rewrite <- app_assoc. cbn [app].
      repeat split; try lengths.
      * apply Forall_app. split; [now apply (binds_at_least_weaker (q := p + 1)); [lia|]|].
        constructor; [|constructor]. split; [assumption | fold p; lia].
      * rewrite reduce_all_app, Hred2. cbn [bind reduce_all].
        rewrite reduce_binary_value by (assumption || lengths). reflexivity.
  - (* a tighter level *)
    destruct (IH ops vals) as (pend & vals' & Hrun & Hpend & Hred & Hsz & Hvsz);
      try assumption.
    + now apply (holds_back_weaker (q' := q')).
    + exists pend, vals'. repeat split; try assumption.
      now apply (binds_at_least_weaker (q := q)).
Qed.

End Precedence.

(** X1: tokens that read, under the usual precedences and grouping to the
    left, as an expression of value [v], and that are at most 1024, evaluate
    to [v]; both stacks are empty afterwards. *)
Theorem evaluation_respects_precedence (e : TokenList) (v : float) :
  parses 2 e v ->
  (List.length e <= 1024)%nat ->
  eval_from e [] [] = Return (v, ([], [])) /\
  eval_by_shunting_yard e = Return v.
Proof.
  intros He Hsize.
  destruct (@eval_parses 2 e v He [] []) as (pend & vals & Hrun & Hpend & Hred & _ & _);
    [exact I | simpl; lia | simpl; lia |].
  rewrite app_nil_r in Hrun.
  assert (Hfrom : eval_from e [] [] = Return (v, ([], []))).
  { unfold eval_from. rewrite Hrun. cbn [bind].
    rewrite reduce_remaining_spec.
    destruct (@take_while_all _ not_left_paren pend
                (no_left_paren_passes
                   (operator_not_left_paren (@binds_at_least_operators 2 pend Hpend))))
      as [-> ->].
    rewrite Hred. reflexivity. }
  split; [exact Hfrom|].
  unfold eval_by_shunting_yard. rewrite Hfrom. reflexivity.
Qed.

Lemma evaluation_respects_precedence_witness :
  let number v := {| type := TOKEN_NUMBER; literal := v; start_at := 0; end_at := 0 |} in
  let sign ty := {| type := ty; literal := unset_literal; start_at := 0; end_at := 0 |} in
  eval_by_shunting_yard
    [number 2%float; sign TOKEN_PLUS; number 3%float; sign TOKEN_STAR; number 4%float]
  = Return (2 + 3 * 4)%float.
Proof.
  intros number sign.
  apply (@evaluation_respects_precedence
           ([number 2%float] ++ sign TOKEN_PLUS
              :: ([number 3%float] ++ sign TOKEN_STAR :: [number 4%float]))
           (apply_binary TOKEN_PLUS 2%float (apply_binary TOKEN_STAR 3%float 4%float))).
  - apply (@parses_binary [number 2%float] (sign TOKEN_PLUS) _ 2%float _ eq_refl).
    + apply (@parses_level 5 _ [number 2%float] _); [simpl; lia|].
      apply (@parses_number (number 2%float)). reflexivity.
    + apply (@parses_binary [number 3%float] (sign TOKEN_STAR) [number 4%float]
               3%float 4%float eq_refl).
      * apply (@parses_level 5 _ [number 3%float] _); [simpl; lia|].
        apply (@parses_number (number 3%float)). reflexivity.
      * apply (@parses_level 5 _ [number 4%float] _); [simpl; lia|].
        apply (@parses_number (number 4%float)). reflexivity.
  - simpl. lia.
Defined.

(** * Beyond the claims: how an evaluation can end *)

Section Failures.

Variable tl : TokenList.

Lemma reduce_fails (t : Token) (vals : list float) (f : Failure) :
  is_operator (type t) = true -> reduce t vals = Exit f ->
  f = ValuesStackEmpty \/ f = ValuesStackOverflowed.
Proof.
  intros Hop. unfold reduce, evaluate, push_value.
  destruct vals as [|operand [|lhs vals]]; cbn [pop_value bind];
    destruct (type t); try discriminate; cbn [pop_value bind];
    repeat match goal with
           | |- context [if ?c then _ else _] => destruct c
           end;
    intros H; inversion H; auto.
Qed.

Lemma reduce_all_fails (popped : list Token) :
  operators_only popped ->
  forall (vals : list float) (f : Failure),
  reduce_all popped vals = Exit f ->
  f = ValuesStackEmpty \/ f = ValuesStackOverflowed.
Proof.
  induction 1 as [|t popped Ht _ IH]; intros vals f; simpl; [discriminate|].
  destruct (reduce t vals) as [vals1|f1] eqn:Hred; cbn [bind].
  - apply IH.
  - intros H. inversion H; subst. eapply reduce_fails; eauto.
Qed.

Lemma stack_tokens_popped (test : Token -> bool) (ops : list Token) :
  (forall t, test t = true -> type t <> TOKEN_LEFT_PAREN) ->
  Forall (stack_token tl) ops ->
  operators_only (take_while test ops) /\
  Forall (stack_token tl) (drop_while test ops).
Proof.
  intros Htest. induction 1 as [|t ops Ht Hops [IH1 IH2]]; simpl.
  - split; constructor.
  - destruct (test t) eqn:E.
    + split; [|assumption]. constructor; [|assumption].
      destruct Ht as [_ [Hop|Hl]]; [assumption|].
      exfalso. exact (Htest t E Hl).
    + split; [constructor | constructor; assumption].
Qed.

Lemma gives_way_not_paren (p : Z) (t : Token) :
  gives_way p t = true -> type t <> TOKEN_LEFT_PAREN.
Proof.
  unfold gives_way. intros H Heq. rewrite Heq in H. discriminate.
Qed.

Lemma not_left_paren_not_paren (t : Token) :
  not_left_paren t = true -> type t <> TOKEN_LEFT_PAREN.
Proof.
  unfold not_left_paren. intros H Heq. rewrite Heq in H. discriminate.
Qed.

Lemma drop_while_head (A : Type) (test : A -> bool) (l : list A) (a : A) (r : list A) :
  drop_while test l = a :: r -> test a = false.
Proof.
  induction l as [|b l IH]; simpl; [discriminate|].
  destruct (test b) eqn:E; [exact IH|]. intros H. inversion H; subst. exact E.
Qed.

(** One token: the operator stack keeps to operators and left parentheses
    of [tl], and an exit is one of the listed ones. *)
Lemma eval_token_ends (token : Token) (ops : list Token) (vals : list float) :
  In token tl -> Forall (stack_token tl) ops ->
  match eval_token token ops vals with
  | Return (ops', _) => Forall (stack_token tl) ops'
  | Exit f => evaluation_failure tl f
  end.
Proof.
  intros Hin Hops.
  destruct (is_operator (type token)) eqn:Hop.
  - rewrite eval_operator by assumption.
    rewrite reduce_while_binding_spec.
    set (p := TOKEN_TYPE_PRECEDENCE (type token)).
    destruct (@stack_tokens_popped (gives_way p) ops (gives_way_not_paren p) Hops)
      as [Hpopped Hkept].
    destruct (reduce_all (take_while (gives_way p) ops) vals) as [vals1|f] eqn:Hred;
      cbn [bind].
    + unfold push_operator.
      destruct (shy_count (drop_while (gives_way p) ops) >=? STACK_SIZE_SHY_OPERATORS);
        cbn [bind].
      * left. reflexivity.
      * constructor; [|assumption]. split; [assumption | left; assumption].
    + destruct (reduce_all_fails Hpopped _ Hred) as [-> | ->];
        unfold evaluation_failure; auto.
  - unfold eval_token.
    destruct (type token) eqn:Hty; try discriminate; simpl.
    + (* a number *)
      unfold push_value. destruct (shy_count vals >=? STACK_SIZE_SHY_VALUES); cbn [bind].
      * right. left. reflexivity.
      * assumption.
    + (* a left parenthesis *)
      unfold push_operator. destruct (shy_count ops >=? STACK_SIZE_SHY_OPERATORS); cbn [bind].
      * left. reflexivity.
      * constructor; [|assumption]. split; [assumption | right; assumption].
    + (* a right parenthesis *)
      rewrite reduce_until_left_paren_spec.
      destruct (@stack_tokens_popped not_left_paren ops not_left_paren_not_paren Hops)
        as [Hpopped Hkept].
      destruct (reduce_all (take_while not_left_paren ops) vals) as [vals1|f] eqn:Hred;
        cbn [bind].
      * destruct (drop_while not_left_paren ops) as [|paren below]; simpl.
        -- right. right. right. right. left. exists token. auto.
        -- inversion Hkept; subst.
           destruct (shy_count (paren :: below) =? 0) eqn:E.
           ++ unfold shy_count in E. simpl List.length in E.
              apply Z.eqb_eq in E. lia.
           ++ assumption.
      * destruct (reduce_all_fails Hpopped _ Hred) as [-> | ->];
          unfold evaluation_failure; auto.
Qed.

Lemma eval_tokens_ends (rest : TokenList) :
  incl rest tl ->
  forall (ops : list Token) (vals : list float),
  Forall (stack_token tl) ops ->
  match eval_tokens rest ops vals with
  | Return (ops', _) => Forall (stack_token tl) ops'
  | Exit f => evaluation_failure tl f
  end.
Proof.
  induction rest as [|token rest IH]; intros Hincl ops vals Hops; simpl.
  - assumption.
  - pose proof (@eval_token_ends token ops vals (Hincl token (or_introl eq_refl)) Hops)
      as Hstep.
    destruct (eval_token token ops vals) as [[ops1 vals1]|f]; cbn [bind].
    + apply IH; [|assumption]. intros t Ht. apply Hincl. now right.
    + assumption.
Qed.

End Failures.

Lemma evaluation_exit_listed (tl : TokenList) (f : Failure) :
  eval_by_shunting_yard tl = Exit f -> evaluation_failure tl f.
Proof.
  intros Hexit.
  unfold eval_by_shunting_yard, eval_from in Hexit.
  pose proof (@eval_tokens_ends tl tl (incl_refl tl) [] [] (Forall_nil _)) as Hrun.
  destruct (eval_tokens tl [] []) as [[ops vals]|f1]; cbn [bind] in Hexit;
    [|inversion Hexit; subst; assumption].
  rewrite reduce_remaining_spec in Hexit.
  destruct (@stack_tokens_popped tl not_left_paren ops not_left_paren_not_paren Hrun)
    as [Hpopped Hkept].
  destruct (reduce_all (take_while not_left_paren ops) vals) as [vals1|f1] eqn:Hred;
    cbn [bind] in Hexit.
  - destruct (drop_while not_left_paren ops) as [|paren below] eqn:Hdrop;
      cbn [bind] in Hexit.
    + destruct (negb (shy_count vals1 =? 1)) eqn:Hone.
      * inversion Hexit; subst. unfold evaluation_failure; auto.
      * destruct vals1 as [|x vals1]; cbn [pop_value bind] in Hexit;
          [discriminate Hone | discriminate Hexit].
    + inversion Hexit; subst.
      right. right. right. right. right. exists paren.
      inversion Hkept as [|? ? [Hin _] _]; subst.
      split; [assumption|]. split; [|reflexivity].
      pose proof (drop_while_head _ _ Hdrop) as Htest.
      unfold not_left_paren in Htest. apply negb_false_iff in Htest.
      now apply TokenType_eqb_eq.
  - inversion Hexit; subst.
    destruct (reduce_all_fails Hpopped _ Hred) as [-> | ->];
      unfold evaluation_failure; auto.
Qed.

(** X2: whatever the tokens, an evaluation that exits does so with one of
    six reports: a full operator or value stack, an empty value stack, a value
    count other than one at the end, or a mismatched right or left
    parenthesis at the position of a parenthesis of that kind among the
    tokens.  The reports "Invalid token type" and "Operators stack is empty"
    never come, and the exit code is always that of an evaluation error. *)
Theorem evaluation_exits_are_reported (tl : TokenList) (f : Failure) :
  eval_by_shunting_yard tl = Exit f ->
  evaluation_failure tl f /\
  (forall a b, f <> InvalidTokenType a b) /\
  f <> OperatorsStackEmpty /\
  exit_code f = ERROR_EVALUATION.
Proof.
  intros Hexit. pose proof (evaluation_exit_listed _ Hexit) as Hf.
  split; [exact Hf|].
  destruct Hf as [-> | [-> | [-> | [-> | [(t & _ & _ & ->) | (t & _ & _ & ->)]]]]];
    repeat split; try discriminate; reflexivity.
Qed.

Lemma evaluation_exits_are_reported_witness :
  evaluation_failure
    [ {| type := TOKEN_RIGHT_PAREN; literal := unset_literal; start_at := 0; end_at := 0 |} ]
    (MismatchedRightParen 0).
Proof.
  apply (@evaluation_exits_are_reported
           [ {| type := TOKEN_RIGHT_PAREN; literal := unset_literal;
                start_at := 0; end_at := 0 |} ]
           (MismatchedRightParen 0)).
  reflexivity.
Defined.

(** * Beyond the claims: what a returned value tells of the tokens *)

Section Counting.

Lemma how_many_cons (test : TokenType -> bool) (t : Token) (tl : list Token) :
  how_many test (t :: tl) = ((if test (type t) then 1 else 0) + how_many test tl)%nat.
Proof. unfold how_many. simpl. destruct (test (type t)); reflexivity. Qed.

Lemma how_many_one (test : TokenType -> bool) (t : Token) :
  how_many test [t] = if test (type t) then 1%nat else 0%nat.
Proof. unfold how_many. simpl. destruct (test (type t)); reflexivity. Qed.

Lemma how_many_app (test : TokenType -> bool) (a b : list Token) :
  how_many test (a ++ b) = (how_many test a + how_many test b)%nat.
Proof. unfold how_many. now rewrite filter_app, length_app. Qed.

Lemma pending_binary_how_many (ops : list Token) :
  pending_binary ops = how_many is_binary ops.
Proof.
  induction ops as [|t ops IH]; [reflexivity|].
  rewrite how_many_cons. simpl. now rewrite IH.
Qed.

Lemma operators_no_paren (ops : list Token) :
  operators_only ops -> how_many is_left_paren ops = O.
Proof.
  induction 1 as [|t ops Ht _ IH]; [reflexivity|].
  rewrite how_many_cons, IH. unfold is_left_paren.
  destruct (type t); try discriminate; reflexivity.
Qed.

(** A reduction that returns was that of an operator, and took one value off
    the stack when the operator was binary. *)
Lemma reduce_count (t : Token) (vals vals' : list float) :
  reduce t vals = Return vals' ->
  is_operator (type t) = true /\
  List.length vals = ((if is_binary (type t) then 1 else 0) + List.length vals')%nat.
Proof.
  unfold reduce, evaluate, push_value.
  destruct vals as [|operand [|lhs vals]]; cbn [pop_value bind];
    destruct (type t); cbn [pop_value bind is_binary is_operator];
    try discriminate;
    repeat match goal with
           | |- context [if ?c then _ else _] => destruct c
           end;
    intros H; inversion H; subst; split; reflexivity.
Qed.

Lemma reduce_all_count (popped : list Token) :
  forall vals vals' : list float,
  reduce_all popped vals = Return vals' ->
  operators_only popped /\
  List.length vals = (pending_binary popped + List.length vals')%nat.
Proof.
  induction popped as [|t popped IH]; intros vals vals'; simpl.
  - intros H. inversion H; subst. split; [constructor | reflexivity].
  - destruct (reduce t vals) as [vals1|f] eqn:Hred; cbn [bind]; [|discriminate].
    intros Hrest. destruct (reduce_count _ _ Hred) as [Hop Hlen].
    destruct (IH _ _ Hrest) as [Hops Hlen1].
    split; [constructor; assumption | lia].
Qed.

(** A loop that returns: the operators it popped are gone from both counts,
    the others are all still there. *)
Lemma popped_count (test : Token -> bool) (ops : list Token)
    (vals vals' : list float) :
  reduce_all (take_while test ops) vals = Return vals' ->
  (List.length vals + pending_binary (drop_while test ops)
   = pending_binary ops + List.length vals')%nat /\
  how_many is_left_paren (drop_while test ops) = how_many is_left_paren ops.
Proof.
  intros Hred. destruct (reduce_all_count _ _ Hred) as [Hops Hlen].
  pose proof (take_drop_while test ops) as Hsplit.
  split.
  - rewrite <- Hsplit at 2. rewrite pending_binary_app. lia.
  - rewrite <- Hsplit at 2. rewrite how_many_app, (operators_no_paren Hops).
    reflexivity.
Qed.

Lemma eval_token_count (token : Token) (ops ops' : list Token)
    (vals vals' : list float) :
  eval_token token ops vals = Return (ops', vals') ->
  (List.length vals' + pending_binary ops + how_many is_binary [token]
   = List.length vals + pending_binary ops' + how_many is_number [token])%nat /\
  (how_many is_left_paren ops' + how_many is_right_paren [token]
   = how_many is_left_paren ops + how_many is_left_paren [token])%nat.
Proof.
  rewrite !how_many_one.
  destruct (is_operator (type token)) eqn:Hop.
  - rewrite eval_operator by assumption. rewrite reduce_while_binding_spec.
    set (p := TOKEN_TYPE_PRECEDENCE (type token)).
    destruct (reduce_all (take_while (gives_way p) ops) vals) as [vals1|f] eqn:Hred;
      cbn [bind]; [|discriminate].
    destruct (popped_count _ _ _ Hred) as [Hbal Hparen].
    unfold push_operator.
    destruct (shy_count (drop_while (gives_way p) ops) >=? STACK_SIZE_SHY_OPERATORS);
      cbn [bind]; [discriminate|].
    intros H. inversion H; subst. rewrite how_many_cons. simpl pending_binary.
    unfold is_number, is_left_paren, is_right_paren in *.
    destruct (type token); try discriminate; simpl; lia.
  - unfold eval_token.
    destruct (type token) eqn:Hty; try discriminate; simpl.
    + unfold push_value. destruct (shy_count vals >=? STACK_SIZE_SHY_VALUES);
        cbn [bind]; [discriminate|].
      intros H. inversion H; subst. simpl. lia.
    + unfold push_operator. destruct (shy_count ops >=? STACK_SIZE_SHY_OPERATORS);
        cbn [bind]; [discriminate|].
      intros H. inversion H; subst. rewrite how_many_cons, Hty.
      unfold is_left_paren. simpl. rewrite Hty. simpl. lia.
    + rewrite reduce_until_left_paren_spec.
      destruct (reduce_all (take_while not_left_paren ops) vals) as [vals1|f] eqn:Hred;
        cbn [bind]; [|discriminate].
      destruct (popped_count _ _ _ Hred) as [Hbal Hparen].
      destruct (drop_while not_left_paren ops) as [|paren below] eqn:Hdrop;
        [discriminate|].
      destruct (shy_count (paren :: below) =? 0); [discriminate|]. simpl.
      intros H. inversion H; subst.
      pose proof (drop_while_head _ _ Hdrop) as Htest.
      unfold not_left_paren in Htest. apply negb_false_iff in Htest.
      apply TokenType_eqb_eq in Htest.
      rewrite how_many_cons in Hparen. simpl in Hbal.
      unfold is_left_paren in *. rewrite Htest in Hparen, Hbal. simpl in *. lia.
Qed.

Lemma eval_tokens_count (rest : TokenList) :
  forall (ops ops' : list Token) (vals vals' : list float),
  eval_tokens rest ops vals = Return (ops', vals') ->
  (List.length vals' + pending_binary ops + how_many is_binary rest
   = List.length vals + pending_binary ops' + how_many is_number rest)%nat /\
  (how_many is_left_paren ops' + how_many is_right_paren rest
   = how_many is_left_paren ops + how_many is_left_paren rest)%nat.
Proof.
  induction rest as [|token rest IH]; intros ops ops' vals vals'; simpl.
  - intros H. inversion H; subst. unfold how_many; simpl. lia.
  - destruct (eval_token token ops vals) as [[ops1 vals1]|f] eqn:Hstep;
      cbn [bind]; [|discriminate].
    intros Hrest. destruct (eval_token_count _ _ _ Hstep) as [Hbal1 Hparen1].
    destruct (IH _ _ _ _ Hrest) as [Hbal Hparen].
    rewrite !(how_many_cons _ token rest).
    rewrite !how_many_one in Hbal1, Hparen1. lia.
Qed.

End Counting.

(** X3: the evaluator returns a value only for tokens that hold one number
    more than binary operators and as many left as right parentheses. *)
Theorem returned_value_needs_balance (tl : TokenList) (v : float) :
  eval_by_shunting_yard tl = Return v ->
  how_many is_number tl = S (how_many is_binary tl) /\
  how_many is_left_paren tl = how_many is_right_paren tl.
Proof.
  unfold eval_by_shunting_yard, eval_from. intros Hret.
  destruct (eval_tokens tl [] []) as [[ops vals]|f] eqn:Hrun; cbn [bind] in Hret;
    [|discriminate].
  destruct (eval_tokens_count _ _ _ Hrun) as [Hbal Hparen].
  rewrite reduce_remaining_spec in Hret.
  destruct (reduce_all (take_while not_left_paren ops) vals) as [vals1|f] eqn:Hred;
    cbn [bind] in Hret; [|discriminate].
  destruct (popped_count _ _ _ Hred) as [Hbal1 Hparen1].
  destruct (drop_while not_left_paren ops) as [|paren below]; [|discriminate].
  cbn [bind] in Hret.
  destruct (shy_count vals1 =? 1) eqn:Hone; [|discriminate]. cbn [negb] in Hret.
  unfold shy_count in Hone. apply Z.eqb_eq in Hone.
  unfold how_many in Hparen1 at 1. simpl in Hbal, Hparen, Hbal1, Hparen1.
  split; lia.
Qed.

Lemma returned_value_needs_balance_witness :
  let number v := {| type := TOKEN_NUMBER; literal := v; start_at := 0; end_at := 0 |} in
  let sign ty := {| type := ty; literal := unset_literal; start_at := 0; end_at := 0 |} in
  how_many is_number [number 8%float; sign TOKEN_MINUS; number 3%float] = 2%nat.
Proof.
  intros number sign.
  apply (@returned_value_needs_balance
           [number 8%float; sign TOKEN_MINUS; number 3%float] 5%float).
  reflexivity.
Defined.

(** * Beyond the claims: the stacks stay inside their arrays *)

Section Capacity.

Lemma drop_while_length (A : Type) (test : A -> bool) (l : list A) :
  (List.length (drop_while test l) <= List.length l)%nat.
Proof.
  induction l as [|a l IH]; simpl; [lia|]. destruct (test a); simpl; lia.
Qed.

Lemma pushed_operator_fits (token : Token) (ops ops' : list Token) :
  push_operator token ops = Return ops' ->
  ops' = token :: ops /\ (List.length ops' <= 1024)%nat.
Proof.
  unfold push_operator, shy_count, STACK_SIZE_SHY_OPERATORS.
  destruct (Z.geb_spec (Z.of_nat (List.length ops)) 1024) as [Hfull|Hfree];
    [discriminate|].
  intros Heq. inversion Heq; subst. split; [reflexivity | simpl; lia].
Qed.

Lemma pushed_value_fits (value : float) (vals vals' : list float) :
  push_value value vals = Return vals' ->
  vals' = value :: vals /\ (List.length vals' <= 1024)%nat.
Proof.
  unfold push_value, shy_count, STACK_SIZE_SHY_VALUES.
  destruct (Z.geb_spec (Z.of_nat (List.length vals)) 1024) as [Hfull|Hfree];
    [discriminate|].
  intros Heq. inversion Heq; subst. split; [reflexivity | simpl; lia].
Qed.

Lemma eval_token_fits (token : Token) (ops ops' : list Token)
    (vals vals' : list float) :
  (List.length ops <= 1024)%nat -> (List.length vals <= 1024)%nat ->
  eval_token token ops vals = Return (ops', vals') ->
  (List.length ops' <= 1024)%nat /\ (List.length vals' <= 1024)%nat.
Proof.
  intros Hops Hvals.
  destruct (is_operator (type token)) eqn:Hop.
  - rewrite eval_operator by assumption. rewrite reduce_while_binding_spec.
    set (p := TOKEN_TYPE_PRECEDENCE (type token)).
    destruct (reduce_all (take_while (gives_way p) ops) vals) as [vals1|f] eqn:Hred;
      cbn [bind]; [|discriminate].
    destruct (reduce_all_count _ _ Hred) as [_ Hlen].
    destruct (push_operator token (drop_while (gives_way p) ops)) as [ops1|f] eqn:Hpush;
      cbn [bind]; [|discriminate].
    intros H. inversion H; subst.
    destruct (pushed_operator_fits _ _ Hpush) as [_ Hfit]. split; [assumption | lia].
  - unfold eval_token.
    destruct (type token) eqn:Hty; try discriminate; simpl.
    + destruct (push_value (literal token) vals) as [vals1|f] eqn:Hpush;
        cbn [bind]; [|discriminate].
      intros H. inversion H; subst.
      destruct (pushed_value_fits _ _ Hpush) as [_ Hfit]. split; assumption.
    + destruct (push_operator token ops) as [ops1|f] eqn:Hpush;
        cbn [bind]; [|discriminate].
      intros H. inversion H; subst.
      destruct (pushed_operator_fits _ _ Hpush) as [_ Hfit]. split; assumption.
    + rewrite reduce_until_left_paren_spec.
      destruct (reduce_all (take_while not_left_paren ops) vals) as [vals1|f] eqn:Hred;
        cbn [bind]; [|discriminate].
      destruct (reduce_all_count _ _ Hred) as [_ Hlen].
      pose proof (drop_while_length not_left_paren ops) as Hdrop.
      destruct (drop_while not_left_paren ops) as [|paren below]; [discriminate|].
      destruct (shy_count (paren :: below) =? 0); [discriminate|]. simpl.
      intros H. inversion H; subst. simpl in Hdrop. split; lia.
Qed.

End Capacity.

Lemma eval_tokens_fit (tl : TokenList) :
  forall (ops ops' : list Token) (vals vals' : list float),
  (List.length ops <= 1024)%nat -> (List.length vals <= 1024)%nat ->
  eval_tokens tl ops vals = Return (ops', vals') ->
  (List.length ops' <= 1024)%nat /\ (List.length vals' <= 1024)%nat.
Proof.
  induction tl as [|t tl IH]; intros ops ops' vals vals' Hops Hvals; simpl.
  - intros H. inversion H; subst. split; assumption.
  - destruct (eval_token t ops vals) as [[ops1 vals1]|f] eqn:Hstep;
      cbn [bind]; [|discriminate].
    destruct (@eval_token_fits t ops ops1 vals vals1 Hops Hvals Hstep)
      as [Hops1 Hvals1].
    apply IH; assumption.
Qed.

(** ** Parentheses without their partner *)

Lemma reduce_in_bounds (t : Token) (vals : list float) :
  is_operator (type t) = true -> (List.length vals <= 1024)%nat ->
  match reduce t vals with
  | Return vals' => (List.length vals' <= List.length vals)%nat
  | Exit f => f = ValuesStackEmpty
  end.
Proof.
  intros Hop Hfit. unfold reduce, evaluate, push_value, shy_count.
  change STACK_SIZE_SHY_VALUES with 1024.
  destruct vals as [|operand [|lhs vals]]; cbn [pop_value bind];
    destruct (type t); try discriminate Hop; cbn [pop_value bind];
    try reflexivity;
    match goal with
    | |- context [?a >=? ?b] => destruct (Z.geb_spec a b)
    end; cbn [List.length] in *; lia.
Qed.

Lemma reduce_all_exit_is_underflow (popped : list Token) :
  operators_only popped ->
  forall (vals : list float) (f : Failure),
  (List.length vals <= 1024)%nat ->
  reduce_all popped vals = Exit f -> f = ValuesStackEmpty.
Proof.
  induction 1 as [|t popped Ht _ IH]; intros vals f Hfit; simpl; [discriminate|].
  pose proof (reduce_in_bounds t vals Ht Hfit) as Hred.
  destruct (reduce t vals) as [vals1|f1]; cbn [bind].
  - apply IH. lia.
  - intros H. inversion H; subst. reflexivity.
Qed.

(** C4, amended: a right parenthesis met when the operator stack holds no left
    parenthesis, its operators all reducing, exits with "Mismatched right
    paren" at the position of that parenthesis; and when the tokens are used
    up with a left parenthesis on the operator stack, the operators above the
    topmost one all reducing, the evaluation exits with "Mismatched left
    paren" at the position of that topmost left parenthesis.  When the
    reduction of one of the operators above that parenthesis exits, the
    evaluation exits with the failure of that reduction instead, and this
    failure is "Values stack is empty" whenever what lies above the
    parenthesis are operators and the values fit their 1024 slots, as they do
    in every evaluation started on empty stacks: [eval_by_shunting_yard] then
    exits with "Values stack is empty".  So ["(1 + 2))"] exits with
    "Mismatched right paren" at 7, ["((1 + 2)"] with "Mismatched left paren"
    at 0 and ["(1 +"] with "Values stack is empty". *)
Theorem mismatched_parens_reported :
  (forall (token : Token) (ops : list Token) (vals vals' : list float),
     type token = TOKEN_RIGHT_PAREN ->
     Forall (fun t => type t <> TOKEN_LEFT_PAREN) ops ->
     reduce_all ops vals = Return vals' ->
     eval_token token ops vals = Exit (MismatchedRightParen (start_at token))) /\
  (forall (tl : TokenList) (ops0 above below : list Token) (paren : Token)
          (vals0 vals vals' : list float),
     eval_tokens tl ops0 vals0 = Return (above ++ paren :: below, vals) ->
     Forall (fun t => type t <> TOKEN_LEFT_PAREN) above ->
     type paren = TOKEN_LEFT_PAREN ->
     reduce_all above vals = Return vals' ->
     eval_from tl ops0 vals0 = Exit (MismatchedLeftParen (start_at paren))) /\
  (forall (tl : TokenList) (ops0 above below : list Token) (paren : Token)
          (vals0 vals : list float) (f : Failure),
     eval_tokens tl ops0 vals0 = Return (above ++ paren :: below, vals) ->
     Forall (fun t => type t <> TOKEN_LEFT_PAREN) above ->
     type paren = TOKEN_LEFT_PAREN ->
     reduce_all above vals = Exit f ->
     eval_from tl ops0 vals0 = Exit f /\
     (operators_only above -> (List.length vals <= 1024)%nat ->
      f = ValuesStackEmpty)) /\
  (forall (tl : TokenList) (above below : list Token) (paren : Token)
          (vals : list float) (f : Failure),
     eval_tokens tl [] [] = Return (above ++ paren :: below, vals) ->
     Forall (fun t => type t <> TOKEN_LEFT_PAREN) above ->
     type paren = TOKEN_LEFT_PAREN ->
     reduce_all above vals = Exit f ->
     eval_by_shunting_yard tl = Exit ValuesStackEmpty) /\
  (forall pos, exit_code (MismatchedRightParen pos) = ERROR_EVALUATION /\
               exit_code (MismatchedLeftParen pos) = ERROR_EVALUATION) /\
  process "(1 + 2))" = Some (Exit (MismatchedRightParen 7)) /\
  process "((1 + 2)" = Some (Exit (MismatchedLeftParen 0)) /\
  process "(1 +" = Some (Exit ValuesStackEmpty).
Proof.
  assert (Hbehind : forall tl ops0 above below paren vals0 vals f,
            eval_tokens tl ops0 vals0 = Return (above ++ paren :: below, vals) ->
            Forall (fun t => type t <> TOKEN_LEFT_PAREN) above ->
            type paren = TOKEN_LEFT_PAREN ->
            reduce_all above vals = Exit f ->
            eval_from tl ops0 vals0 = Exit f).
  { intros tl ops0 above below paren vals0 vals f Hrun Hno Hty Hred.
    unfold eval_from. rewrite Hrun. cbn [bind].
    rewrite reduce_remaining_spec.
    destruct (@take_while_stop _ not_left_paren above paren below
                (no_left_paren_passes Hno)) as [-> ->].
    - unfold not_left_paren. rewrite Hty. reflexivity.
    - rewrite Hred. reflexivity. }
  split; [|split; [|split; [|split; [|repeat split; vm_compute; reflexivity]]]].
  - intros token ops vals vals' Hty Hno Hred.
    unfold eval_token. rewrite Hty. simpl.
    rewrite reduce_until_left_paren_spec.
    destruct (@take_while_all _ not_left_paren ops (no_left_paren_passes Hno)) as [-> ->].
    rewrite Hred. reflexivity.
  - intros tl ops0 above below paren vals0 vals vals' Hrun Hno Hty Hred.
    unfold eval_from. rewrite Hrun. cbn [bind].
    rewrite reduce_remaining_spec.
    destruct (@take_while_stop _ not_left_paren above paren below
                (no_left_paren_passes Hno)) as [-> ->].
    + unfold not_left_paren. rewrite Hty. reflexivity.
    + rewrite Hred. reflexivity.
  - intros tl ops0 above below paren vals0 vals f Hrun Hno Hty Hred. split.
    + exact (Hbehind tl ops0 above below paren vals0 vals f Hrun Hno Hty Hred).
    + intros Hops Hfit.
      exact (@reduce_all_exit_is_underflow above Hops vals f Hfit Hred).
  - intros tl above below paren vals f Hrun Hno Hty Hred.
    assert (f = ValuesStackEmpty) as ->.
    { apply (@reduce_all_exit_is_underflow above) with (vals := vals);
        [| |exact Hred].
      - pose proof (@eval_tokens_ends tl tl (incl_refl tl) [] [] (Forall_nil _))
          as Hstack.
        rewrite Hrun in Hstack.
        apply Forall_app in Hstack. destruct Hstack as [Habove _].
        unfold operators_only.
        rewrite Forall_forall in *. intros t Hin.
        destruct (Habove t Hin) as [_ [Hop|Hparen]]; [exact Hop|].
        exfalso. exact (Hno t Hin Hparen).
      - exact (proj2 (@eval_tokens_fit tl [] (above ++ paren :: below) [] vals
                        (Nat.le_0_l _) (Nat.le_0_l _) Hrun)). }
    unfold eval_by_shunting_yard.
    rewrite (Hbehind tl [] above below paren [] vals ValuesStackEmpty
               Hrun Hno Hty Hred).
    reflexivity.
Qed.

Lemma mismatched_parens_reported_witness :
  let token ty pos := {| type := ty; literal := unset_literal;
                         start_at := pos; end_at := pos |} in
  let number v pos := {| type := TOKEN_NUMBER; literal := v;
                         start_at := pos; end_at := pos |} in
  eval_token (token TOKEN_RIGHT_PAREN 5) [token TOKEN_PLUS 2] [2%float; 1%float]
    = Exit (MismatchedRightParen 5) /\
  eval_from [token TOKEN_LEFT_PAREN 0; number 1%float 1; token TOKEN_PLUS 3;
             number 2%float 5] [] []
    = Exit (MismatchedLeftParen 0) /\
  eval_from [token TOKEN_LEFT_PAREN 0; number 1%float 1; token TOKEN_PLUS 3] [] []
    = Exit ValuesStackEmpty /\
  eval_by_shunting_yard
    [token TOKEN_LEFT_PAREN 0; token TOKEN_LEFT_PAREN 1; number 1%float 2;
     token TOKEN_STAR 4]
    = Exit ValuesStackEmpty.
Proof.
  intros token number. split; [|split; [|split]].
  - apply (proj1 mismatched_parens_reported
             (token TOKEN_RIGHT_PAREN 5) [token TOKEN_PLUS 2]
             [2%float; 1%float] [3%float]).
    + reflexivity.
    + repeat constructor. discriminate.
    + reflexivity.
  - apply (proj1 (proj2 mismatched_parens_reported)
             [token TOKEN_LEFT_PAREN 0; number 1%float 1; token TOKEN_PLUS 3;
              number 2%float 5]
             [] [token TOKEN_PLUS 3] [] (token TOKEN_LEFT_PAREN 0)
             [] [2%float; 1%float] [3%float]).
    + reflexivity.
    + repeat constructor. discriminate.
    + reflexivity.
    + reflexivity.
  - assert (Hno : Forall (fun t => type t <> TOKEN_LEFT_PAREN) [token TOKEN_PLUS 3])
      by (repeat constructor; discriminate).
    exact (proj1 (proj1 (proj2 (proj2 mismatched_parens_reported))
             [token TOKEN_LEFT_PAREN 0; number 1%float 1; token TOKEN_PLUS 3]
             [] [token TOKEN_PLUS 3] [] (token TOKEN_LEFT_PAREN 0)
             [] [1%float] ValuesStackEmpty
             eq_refl Hno eq_refl eq_refl)).
  - apply (proj1 (proj2 (proj2 (proj2 mismatched_parens_reported)))
             [token TOKEN_LEFT_PAREN 0; token TOKEN_LEFT_PAREN 1; number 1%float 2;
              token TOKEN_STAR 4]
             [token TOKEN_STAR 4] [token TOKEN_LEFT_PAREN 0]
             (token TOKEN_LEFT_PAREN 1) [1%float] ValuesStackEmpty).
    + reflexivity.
    + repeat constructor. discriminate.
    + reflexivity.
    + reflexivity.
Defined.

(** X4: from stacks that fit their 1024 slots, the loop over the tokens
    leaves, after every token it gets through, stacks that fit their 1024
    slots: no push goes past the end of [shy_operators] or [shy_values]. *)
Theorem stacks_stay_in_bounds (done rest : TokenList) (ops ops' : list Token)
    (vals vals' : list float) :
  (List.length ops <= 1024)%nat -> (List.length vals <= 1024)%nat ->
  eval_tokens (done ++ rest) ops vals = Return (ops', vals') ->
  exists ops1 vals1,
    eval_tokens done ops vals = Return (ops1, vals1) /\
    (List.length ops1 <= 1024)%nat /\ (List.length vals1 <= 1024)%nat /\
    (List.length ops' <= 1024)%nat /\ (List.length vals' <= 1024)%nat.
Proof.
  assert (Hall : forall tl o v o' v',
            (List.length o <= 1024)%nat -> (List.length v <= 1024)%nat ->
            eval_tokens tl o v = Return (o', v') ->
            (List.length o' <= 1024)%nat /\ (List.length v' <= 1024)%nat).
  { induction tl as [|token tl IH]; intros o v o' v' Ho Hv; simpl.
    - intros H. inversion H; subst. auto.
    - destruct (eval_token token o v) as [[o1 v1]|f] eqn:Hstep; cbn [bind];
        [|discriminate].
      destruct (@eval_token_fits token o o1 v v1 Ho Hv Hstep) as [Ho1 Hv1].
      apply IH; assumption. }
  intros Hops Hvals. rewrite eval_tokens_app.
  destruct (eval_tokens done ops vals) as [[ops1 vals1]|f] eqn:Hdone; cbn [bind];
    [|discriminate].
  intros Hrest.
  destruct (Hall _ _ _ _ _ Hops Hvals Hdone) as [Ho1 Hv1].
  destruct (Hall _ _ _ _ _ Ho1 Hv1 Hrest) as [Ho' Hv'].
  exists ops1, vals1. auto.
Qed.

Lemma stacks_stay_in_bounds_witness :
  exists ops1 vals1,
    eval_tokens (nested_tokens 1) [] [] = Return (ops1, vals1) /\
    (List.length ops1 <= 1024)%nat /\ (List.length vals1 <= 1024)%nat.
Proof.
  destruct (@stacks_stay_in_bounds (nested_tokens 1) [] [] [] [] [1%float])
    as (ops1 & vals1 & Hrun & Ho & Hv & _).
  - simpl; lia.
  - simpl; lia.
  - reflexivity.
  - exists ops1, vals1. auto.
Defined.

(** * Beyond the claims: what the scanner accepts and what it covers *)

Section ScannerRuns.

Lemma inside_line_no_terminator (src : list ascii) (i : nat) :
  (i < line_length src)%nat -> is_terminator (nth i src NUL) = false.
Proof.
  revert i; induction src as [|c src IH]; simpl; intros i Hi; [lia|].
  destruct (is_terminator c) eqn:E; [lia|].
  destruct i as [|i]; [assumption|]. apply IH. lia.
Qed.

Lemma not_at_end_inside (scanner : Scanner) :
  0 <= current scanner <= Z.of_nat (line_length (source scanner)) ->
  scanner_is_at_end scanner = false ->
  current scanner < Z.of_nat (line_length (source scanner)).
Proof.
  intros Hcur Hend.
  assert ((Z.to_nat (current scanner) < line_length (source scanner))%nat); [|lia].
  apply not_terminator_lt_line_length; [lia|].
  unfold scanner_is_at_end, char_at in Hend. unfold is_terminator.
  destruct (Z.ltb_spec (current scanner) 0); [lia | exact Hend].
Qed.

Lemma at_end_is_line_end (scanner : Scanner) :
  0 <= current scanner <= Z.of_nat (line_length (source scanner)) ->
  scanner_is_at_end scanner = true ->
  current scanner = Z.of_nat (line_length (source scanner)).
Proof.
  intros Hcur Hend.
  destruct (Z.eq_dec (current scanner) (Z.of_nat (line_length (source scanner))))
    as [|Hne]; [assumption|].
  exfalso.
  assert (Hlt : (Z.to_nat (current scanner) < line_length (source scanner))%nat) by lia.
  apply inside_line_no_terminator in Hlt.
  unfold scanner_is_at_end, char_at in Hend. unfold is_terminator in Hlt.
  destruct (Z.ltb_spec (current scanner) 0); [lia | congruence].
Qed.

(** The one exit of [scanner_scan_token]. *)
Lemma scan_token_exit (scanner : Scanner) (f : Failure) :
  scanner_scan_token scanner = Exit f ->
  f = UnexpectedCharacter (scanner_peek scanner) (current scanner) /\
  accepted (scanner_peek scanner) = false.
Proof.
  unfold scanner_scan_token, scanner_peek, accepted, starts_token.
  cbn [scanner_advance tokens current].
  set (c := char_at (source scanner) (current scanner)).
  destruct (Ascii.eqb c "+"); [discriminate|].
  destruct (Ascii.eqb c "-").
  { destruct (_ || _); discriminate. }
  destruct (Ascii.eqb c "*"); [discriminate|].
  destruct (Ascii.eqb c "/"); [discriminate|].
  destruct (Ascii.eqb c "("); [discriminate|].
  destruct (Ascii.eqb c ")"); [discriminate|].
  destruct (Ascii.eqb c " "); [discriminate|].
  destruct (IS_DIGIT c); [discriminate|].
  intros H. inversion H; subst. split; [f_equal; lia | reflexivity].
Qed.

Lemma scanner_loop_exit (fuel : nat) :
  forall (scanner : Scanner) (f : Failure),
  scanner_inv scanner ->
  scanner_loop fuel scanner = Some (Exit f) ->
  exists pos, 0 <= pos < Z.of_nat (line_length (source scanner)) /\
              f = UnexpectedCharacter (char_at (source scanner) pos) pos /\
              accepted (char_at (source scanner) pos) = false.
Proof.
  induction fuel as [|fuel IH]; intros scanner f Hinv; cbn [scanner_loop];
    [discriminate|].
  destruct (scanner_is_at_end scanner) eqn:Hend; [discriminate|].
  pose proof (scan_token_step Hinv Hend) as Hstep.
  destruct (scanner_scan_token (set_start scanner)) as [scanner'|f'] eqn:Hscan.
  - destruct Hstep as (Hinv' & Hsrc & _). intros Hrest.
    rewrite <- Hsrc. now apply IH.
  - intros H. inversion H; subst.
    destruct (scan_token_exit _ Hscan) as [-> Hacc].
    exists (current scanner). destruct Hinv as [Hcur _].
    split; [pose proof (not_at_end_inside _ Hcur Hend); lia|].
    split; [reflexivity | exact Hacc].
Qed.

Lemma scanner_exit_located (src : list ascii) (f : Failure) :
  scanner_execute (scanner_init src) = Some (Exit f) ->
  exists pos, 0 <= pos < Z.of_nat (line_length src) /\
              f = UnexpectedCharacter (char_at src pos) pos /\
              accepted (char_at src pos) = false.
Proof.
  unfold scanner_execute.
  destruct (scanner_loop _ (scanner_init src)) as [[scanner'|f']|] eqn:Hloop;
    try discriminate.
  intros H. inversion H; subst.
  apply (scanner_loop_exit _ (scanner_init_inv src) Hloop).
Qed.

End ScannerRuns.

(** X5: when the scanner exits, it reports the character found at the
    reported offset; that offset lies inside the line, the character is no
    digit, operator sign, parenthesis or space, and the exit code is that of
    a parsing error. *)
Theorem unexpected_character_is_located (src : list ascii) (f : Failure) :
  scanner_execute (scanner_init src) = Some (Exit f) ->
  exists pos,
    0 <= pos < Z.of_nat (line_length src) /\
    f = UnexpectedCharacter (char_at src pos) pos /\
    accepted (char_at src pos) = false /\
    exit_code f = ERROR_PARSING.
Proof.
  intros Hexit. destruct (scanner_exit_located _ Hexit) as (pos & Hpos & -> & Hacc).
  exists pos. repeat split; try assumption; lia.
Qed.

Lemma unexpected_character_is_located_witness :
  exists pos,
    0 <= pos < 5 /\
    UnexpectedCharacter "&" 2
      = UnexpectedCharacter (char_at (list_ascii_of_string "2 & 3") pos) pos.
Proof.
  destruct (@unexpected_character_is_located (list_ascii_of_string "2 & 3")
              (UnexpectedCharacter "&" 2)) as (pos & Hpos & Heq & _).
  - vm_compute. reflexivity.
  - exists pos. split; [exact Hpos | exact Heq].
Defined.



Section Tiling.

(** One round of the loop either gets past a space or stores one token that
    starts where the round started and ends where it stopped. *)
Lemma scan_token_span (scanner scanner' : Scanner) :
  scanner_inv scanner ->
  scanner_is_at_end scanner = false ->
  scanner_scan_token (set_start scanner) = Return scanner' ->
  (tokens scanner' = tokens scanner /\
   char_at (source scanner) (current scanner) = " "%char /\
   current scanner' = current scanner + 1) \/
  (exists t, tokens scanner' = tokens scanner ++ [t] /\
             start_at t = current scanner /\
             end_at t = current scanner' - 1 /\
             current scanner < current scanner').
Proof.
  intros [Hcur Hsc] Hend.
  pose proof (not_at_end_inside _ Hcur Hend) as Hlt.
  unfold scanner_scan_token.
  cbn [scanner_advance set_start source current start tokens].
  set (c := char_at (source scanner) (current scanner)) in *.
  assert (Hone : forall ty,
    Return (scanner_add_token
              {| source := source scanner; tokens := tokens scanner;
                 start := current scanner; current := current scanner + 1 |} ty)
      = Return scanner' ->
    exists t, tokens scanner' = tokens scanner ++ [t] /\
              start_at t = current scanner /\
              end_at t = current scanner' - 1 /\
              current scanner < current scanner').
  { intros ty H. inversion H; subst. unfold scanner_add_token, token_list_add_item.
    cbn [source tokens start current]. eexists. split; [reflexivity|].
    cbn [start_at end_at]. lia. }
  destruct (Ascii.eqb_spec c "+"); [intros H; right; exact (Hone _ H)|].
  destruct (Ascii.eqb_spec c "-").
  { destruct (_ || _); intros H; right; exact (Hone _ H). }
  destruct (Ascii.eqb_spec c "*"); [intros H; right; exact (Hone _ H)|].
  destruct (Ascii.eqb_spec c "/"); [intros H; right; exact (Hone _ H)|].
  destruct (Ascii.eqb_spec c "("); [intros H; right; exact (Hone _ H)|].
  destruct (Ascii.eqb_spec c ")"); [intros H; right; exact (Hone _ H)|].
  destruct (Ascii.eqb_spec c " ") as [Hsp|].
  { intros H. inversion H; subst. left. cbn [tokens current]. auto. }
  destruct (IS_DIGIT c) eqn:Hd; [|discriminate].
  rewrite scanner_number_spec; cbn [source tokens start current];
    try lia; try exact Hd.
  destruct (number_token_ok (source scanner) (last_type (tokens scanner))
              (from := current scanner)) as (_ & _ & Hlen); [lia | exact Hd |].
  intros H. inversion H; subst. right. cbn [source tokens start current].
  eexists. split; [reflexivity|]. cbn [start_at end_at]. lia.
Qed.

Lemma tiling_step (scanner scanner' : Scanner) :
  scanner_inv scanner -> tiling_inv scanner ->
  scanner_is_at_end scanner = false ->
  scanner_scan_token (set_start scanner) = Return scanner' ->
  source scanner' = source scanner ->
  tiling_inv scanner'.
Proof.
  intros Hinv (Hends & Horder & Hcover) Hend Hscan Hsrc.
  destruct (scan_token_span Hinv Hend Hscan)
    as [(Htok & Hspace & Hnext) | (t & Htok & Hstart & Hstop & Hlt)];
    unfold tiling_inv; rewrite Htok, Hsrc.
  - repeat split.
    + intros t Ht. specialize (Hends t Ht). lia.
    + exact Horder.
    + intros i Hi. destruct (Z.eq_dec i (current scanner)) as [->|Hne];
        [left; exact Hspace | apply Hcover; lia].
  - repeat split.
    + intros t' Ht'. apply in_app_or in Ht'. destruct Ht' as [Ht'|[<-|[]]];
        [specialize (Hends t' Ht'); lia | lia].
    + intros i j a b Hij Ha Hb.
      destruct (Nat.lt_ge_cases j (List.length (tokens scanner))) as [Hj|Hj].
      * rewrite nth_error_app1 in Ha, Hb by lia. exact (Horder i j a b Hij Ha Hb).
      * rewrite nth_error_app2 in Hb by lia.
        destruct (j - List.length (tokens scanner))%nat as [|k] eqn:Ek;
          [|destruct k; discriminate Hb].
        inversion Hb; subst b.
        rewrite nth_error_app1 in Ha by lia.
        apply nth_error_In in Ha. specialize (Hends a Ha). lia.
    + intros i Hi. destruct (Z.lt_ge_cases i (current scanner)) as [Hold|Hnew].
      * destruct (Hcover i) as [Hsp|(t' & Hin & Hspan)]; [lia | left; exact Hsp |].
        right. exists t'. split; [apply in_or_app; left; exact Hin | exact Hspan].
      * right. exists t. split; [apply in_or_app; right; left; reflexivity | lia].
Qed.

Lemma scanner_loop_tiling (fuel : nat) :
  forall scanner scanner' : Scanner,
  scanner_inv scanner -> tiling_inv scanner ->
  scanner_loop fuel scanner = Some (Return scanner') ->
  tiling_inv scanner' /\ source scanner' = source scanner /\
  current scanner' = Z.of_nat (line_length (source scanner)).
Proof.
  induction fuel as [|fuel IH]; intros scanner scanner' Hinv Htile;
    cbn [scanner_loop]; [discriminate|].
  destruct (scanner_is_at_end scanner) eqn:Hend.
  - intros H. inversion H; subst. destruct Hinv as [Hcur _].
    repeat split; try apply Htile. now apply at_end_is_line_end.
  - pose proof (scan_token_step Hinv Hend) as Hstep.
    destruct (scanner_scan_token (set_start scanner)) as [scanner1|f] eqn:Hscan;
      [|discriminate].
    destruct Hstep as (Hinv1 & Hsrc & _). intros Hrest.
    destruct (IH _ _ Hinv1 (tiling_step Hinv Htile Hend Hscan Hsrc) Hrest)
      as (Htile' & Hsrc' & Hcur').
    rewrite Hsrc in Hsrc', Hcur'. auto.
Qed.

End Tiling.

(** X7: the tokens returned for a line come in the order of the source
    with their spans apart (each token ends before the next one starts), and
    every character of the line is a space or lies in the span of a token:
    the scanner drops spaces and nothing else. *)
Theorem tokens_tile_the_line (src : list ascii) (tl : TokenList) :
  scanner_execute (scanner_init src) = Some (Return tl) ->
  in_order tl /\ covered src tl (Z.of_nat (line_length src)).
Proof.
  unfold scanner_execute.
  destruct (scanner_loop _ (scanner_init src)) as [[scanner'|f]|] eqn:Hloop;
    try discriminate.
  intros H. inversion H; subst.
  assert (Hstart : tiling_inv (scanner_init src)).
  { repeat split.
    - intros t [].
    - intros i j a b _ Ha. destruct i; discriminate Ha.
    - intros i Hi. simpl in Hi. lia. }
  destruct (@scanner_loop_tiling _ (scanner_init src) scanner'
              (scanner_init_inv src) Hstart Hloop)
    as ((_ & Horder & Hcover) & Hsrc & Hcur).
  simpl in Hsrc, Hcur. rewrite Hsrc, Hcur in Hcover. auto.
Qed.

Lemma tokens_tile_the_line_witness :
  in_order
    [ {| type := TOKEN_NUMBER; literal := 3%float; start_at := 0; end_at := 0 |};
      {| type := TOKEN_MINUS; literal := unset_literal; start_at := 2; end_at := 2 |};
      {| type := TOKEN_NUMBER; literal := 12%float; start_at := 4; end_at := 7 |} ].
Proof.
  apply (@tokens_tile_the_line (list_ascii_of_string "3 - 12.5")).
  vm_compute. reflexivity.
Defined.

(** * Beyond the claims: what the program reports when it fails *)

Lemma scanned_paren (src : list ascii) (tl : TokenList) (t : Token) :
  scanned src tl -> In t tl ->
  type t = TOKEN_LEFT_PAREN \/ type t = TOKEN_RIGHT_PAREN ->
  0 <= start_at t < Z.of_nat (line_length src) /\
  char_at src (start_at t) = token_char (type t).
Proof.
  intros Hsc Hin Hty.
  destruct (@scanned_In src tl t Hsc Hin) as (prev & Hspan & Hend & Hok).
  destruct Hty as [Hty|Hty]; rewrite Hty in Hok |- *; cbn iota zeta in Hok;
    destruct Hok as (Heq & Hch & _); split; try assumption; lia.
Qed.

(** X8: when the program fails on a source buffer, either the scanner
    stopped on a character of the line that starts no token, reported with
    its offset and the exit code of a parsing error, or the evaluation
    stopped, with the exit code of an evaluation error, on a full stack, on
    an empty value stack, on a value count other than one, or on a
    parenthesis without partner, in which case the reported position is that
    of a parenthesis of the reported kind in the line. *)
Theorem failures_point_into_the_line (src : list ascii) (f : Failure) :
  process_source src = Some (Exit f) ->
  (exists pos,
     0 <= pos < Z.of_nat (line_length src) /\
     f = UnexpectedCharacter (char_at src pos) pos /\
     accepted (char_at src pos) = false /\
     exit_code f = ERROR_PARSING)
  \/
  (exit_code f = ERROR_EVALUATION /\
   (f = OperatorsStackOverflowed \/ f = ValuesStackOverflowed \/
    f = ValuesStackEmpty \/ f = CannotEvaluate \/
    (exists pos, 0 <= pos < Z.of_nat (line_length src) /\
                 char_at src pos = ")"%char /\ f = MismatchedRightParen pos) \/
    (exists pos, 0 <= pos < Z.of_nat (line_length src) /\
                 char_at src pos = "("%char /\ f = MismatchedLeftParen pos))).
Proof.
  unfold process_source.
  destruct (scanner_execute (scanner_init src)) as [[tl|f']|] eqn:Hscan;
    try discriminate; intros H; inversion H as [Heval]; clear H.
  - right.
    pose proof (returned_tokens_scanned src Hscan) as Hsc.
    destruct (evaluation_exit_listed _ Heval)
      as [-> | [-> | [-> | [-> | [(t & Hin & Hty & ->) | (t & Hin & Hty & ->)]]]]];
      (split; [reflexivity|]); auto.
    + destruct (@scanned_paren src tl t Hsc Hin (or_intror Hty)) as [Hpos Hch].
      rewrite Hty in Hch. right. right. right. right. left.
      exists (start_at t). auto.
    + destruct (@scanned_paren src tl t Hsc Hin (or_introl Hty)) as [Hpos Hch].
      rewrite Hty in Hch. right. right. right. right. right.
      exists (start_at t). auto.
  - left. subst f'.
    destruct (scanner_exit_located _ Hscan) as (pos & Hpos & -> & Hacc).
    exists pos. repeat split; try assumption; lia.
Qed.

Lemma failures_point_into_the_line_witness :
  exists pos, 0 <= pos < 8 /\
              char_at (list_ascii_of_string "(1 + 2))") pos = ")"%char /\
              MismatchedRightParen 7 = MismatchedRightParen pos.
Proof.
  destruct (@failures_point_into_the_line (list_ascii_of_string "(1 + 2))")
              (MismatchedRightParen 7))
    as [(pos & _ & Heq & _) | (_ & [H|[H|[H|[H|[Hright|(pos & _ & _ & H)]]]]])];
    try discriminate.
  - vm_compute. reflexivity.
  - exact Hright.
Defined.

(** * Beyond the claims: what follows the line *)

Section LineEnd.

Variable line tail : list ascii.
Hypothesis line_plain : Forall (fun c => is_terminator c = false) line.
Hypothesis tail_ends : is_terminator (hd NUL tail) = true.

Lemma terminator_no_digit (c : ascii) : is_terminator c = true -> IS_DIGIT c = false.
Proof.
  intros Ht. destruct (IS_DIGIT c) eqn:Hd; [|reflexivity].
  apply digit_not_terminator in Hd. congruence.
Qed.

Lemma digit_run_before_end (p : list ascii) : digit_run (p ++ tail) = digit_run p.
Proof.
  induction p as [|c p IH]; simpl.
  - destruct tail as [|t r]; [reflexivity|]. simpl in *.
    now rewrite terminator_no_digit.
  - now rewrite IH.
Qed.

Lemma number_text_before_end (p : list ascii) :
  number_text (p ++ tail) = number_text p.
Proof.
  unfold number_text. rewrite digit_run_before_end.
  pose proof (f_equal (@List.length ascii) (digit_run_prefix p)) as Hn.
  rewrite length_app in Hn.
  set (n := List.length (digit_run p)) in *.
  rewrite skipn_app. replace (n - List.length p)%nat with O by lia.
  cbn [skipn].
  destruct (skipn n p) as [|c [|d rest]]; cbn [app].
  - destruct tail as [|t [|t' r]]; try reflexivity.
    simpl in tail_ends.
    destruct (Ascii.eqb_spec t ".") as [->|]; [discriminate tail_ends | reflexivity].
  - destruct tail as [|t r]; [reflexivity|]. simpl in tail_ends.
    rewrite (terminator_no_digit _ tail_ends), andb_false_r. reflexivity.
  - destruct (Ascii.eqb c "." && IS_DIGIT d); [|reflexivity].
    change (d :: rest ++ tail) with ((d :: rest) ++ tail).
    now rewrite digit_run_before_end.
Qed.

Lemma line_length_before_end : line_length (line ++ tail) = List.length line.
Proof.
  induction line_plain as [|c l Hc Hl IH]; simpl.
  - destruct tail as [|t r]; [reflexivity|]. simpl in *. now rewrite tail_ends.
  - rewrite Hc. f_equal. exact (IH Hl).
Qed.

Lemma line_length_plain : line_length line = List.length line.
Proof.
  induction line_plain as [|c l Hc Hl IH]; simpl; [reflexivity|].
  rewrite Hc. f_equal. exact (IH Hl).
Qed.

Lemma char_at_inside (i : Z) :
  0 <= i < Z.of_nat (List.length line) ->
  char_at (line ++ tail) i = char_at line i.
Proof.
  intros Hi. unfold char_at. destruct (Z.ltb_spec i 0); [lia|].
  apply app_nth1. lia.
Qed.

Lemma char_at_line_end :
  is_terminator (char_at (line ++ tail) (Z.of_nat (List.length line))) = true /\
  char_at line (Z.of_nat (List.length line)) = NUL.
Proof.
  unfold char_at. destruct (Z.ltb_spec (Z.of_nat (List.length line)) 0); [lia|].
  rewrite Nat2Z.id. split.
  - rewrite app_nth2, Nat.sub_diag by lia.
    destruct tail; [reflexivity | exact tail_ends].
  - apply nth_overflow. lia.
Qed.

Lemma at_end_before_end (scanner : Scanner) :
  source scanner = line ++ tail ->
  0 <= current scanner <= Z.of_nat (List.length line) ->
  scanner_is_at_end (retarget line scanner) = scanner_is_at_end scanner.
Proof.
  intros Hsrc Hcur. unfold scanner_is_at_end. cbn [retarget source current].
  rewrite Hsrc.
  destruct (Z.eq_dec (current scanner) (Z.of_nat (List.length line))) as [->|Hne].
  - destruct char_at_line_end as [Hend ->]. unfold is_terminator in Hend.
    rewrite Hend. reflexivity.
  - rewrite char_at_inside by lia. reflexivity.
Qed.

(** [atof] reads a digit followed by the end of the line as that digit,
    whichever character ends the line. *)
Lemma atof_digit_at_end (d t : ascii) :
  IS_DIGIT d = true -> is_terminator t = true ->
  atof (c_string [d; t; NUL]) = atof (c_string [d; NUL; NUL]).
Proof.
  intros Hd Ht. unfold is_terminator in Ht. apply orb_true_iff in Ht.
  destruct Ht as [Ht|Ht]; apply Ascii.eqb_eq in Ht; subst t; [reflexivity|].
  destruct d as [[] [] [] [] [] [] [] []]; try discriminate Hd; reflexivity.
Qed.

Lemma literal_before_end (from : Z) :
  0 <= from < Z.of_nat (List.length line) ->
  IS_DIGIT (char_at line from) = true ->
  atof (c_string (literal_buffer (line ++ tail) from))
  = atof (c_string (literal_buffer line from)).
Proof.
  intros Hfrom Hd. unfold literal_buffer, memcpy.
  change (Z.to_nat 2) with 2%nat. cbn [seq map app].
  replace (from + Z.of_nat 0) with from by lia.
  rewrite (char_at_inside Hfrom).
  destruct (Z.eq_dec (from + Z.of_nat 1) (Z.of_nat (List.length line))) as [->|Hne].
  - destruct char_at_line_end as [Hend ->]. now apply atof_digit_at_end.
  - rewrite char_at_inside by lia. reflexivity.
Qed.

Lemma unread_before_end (from : Z) :
  0 <= from <= Z.of_nat (List.length line) ->
  skipn (Z.to_nat from) (line ++ tail) = skipn (Z.to_nat from) line ++ tail.
Proof.
  intros Hfrom. rewrite skipn_app.
  replace (Z.to_nat from - List.length line)%nat with O by lia. reflexivity.
Qed.

(** One round of the loop goes the same way over the line alone. *)
Lemma scan_token_before_end (scanner : Scanner) :
  source scanner = line ++ tail ->
  0 <= current scanner < Z.of_nat (List.length line) ->
  Some (scanner_scan_token (set_start (retarget line scanner)))
  = retarget_outcome line (Some (scanner_scan_token (set_start scanner))).
Proof.
  intros Hsrc Hcur. unfold scanner_scan_token.
  cbn [scanner_advance set_start retarget source current start tokens].
  rewrite Hsrc, (char_at_inside Hcur).
  set (c := char_at line (current scanner)).
  destruct (Ascii.eqb c "+"); [reflexivity|].
  destruct (Ascii.eqb c "-"); [destruct (_ || _); reflexivity|].
  destruct (Ascii.eqb c "*"); [reflexivity|].
  destruct (Ascii.eqb c "/"); [reflexivity|].
  destruct (Ascii.eqb c "("); [reflexivity|].
  destruct (Ascii.eqb c ")"); [reflexivity|].
  destruct (Ascii.eqb c " "); [reflexivity|].
  destruct (IS_DIGIT c) eqn:Hd; [|reflexivity].
  rewrite !scanner_number_spec; cbn [source tokens start current]; try lia;
    try exact Hd; [|rewrite (char_at_inside Hcur); exact Hd].
  cbn [retarget_outcome retarget source tokens start current].
  rewrite unread_before_end, number_text_before_end by lia.
  rewrite literal_before_end by (assumption || lia).
  reflexivity.
Qed.

Lemma scanner_loop_before_end (fuel : nat) :
  forall scanner : Scanner,
  source scanner = line ++ tail ->
  scanner_inv scanner ->
  scanner_loop fuel (retarget line scanner)
  = retarget_outcome line (scanner_loop fuel scanner).
Proof.
  induction fuel as [|fuel IH]; intros scanner Hsrc Hinv; cbn [scanner_loop];
    [reflexivity|].
  assert (Hcur : 0 <= current scanner <= Z.of_nat (List.length line)).
  { destruct Hinv as [Hcur _]. rewrite Hsrc, line_length_before_end in Hcur. lia. }
  rewrite at_end_before_end by assumption.
  destruct (scanner_is_at_end scanner) eqn:Hend; [reflexivity|].
  assert (Hlt : current scanner < Z.of_nat (List.length line)).
  { pose proof (not_at_end_inside _ (proj1 Hinv) Hend) as H.
    rewrite Hsrc, line_length_before_end in H. exact H. }
  pose proof (@scan_token_before_end scanner Hsrc (conj (proj1 Hcur) Hlt)) as Hstep.
  pose proof (scan_token_step Hinv Hend) as Hkeep.
  destruct (scanner_scan_token (set_start scanner)) as [scanner1|f];
    cbn [retarget_outcome] in Hstep; inversion Hstep as [Hstep']; clear Hstep.
  - destruct Hkeep as (Hinv1 & Hsrc1 & _). rewrite Hstep'.
    apply IH; [congruence | assumption].
  - rewrite Hstep'. reflexivity.
Qed.

End LineEnd.

Lemma scanner_loop_more_fuel (fuel : nat) :
  forall (more : nat) (scanner : Scanner) (r : Outcome Scanner),
  scanner_loop fuel scanner = Some r ->
  scanner_loop (fuel + more) scanner = Some r.
Proof.
  induction fuel as [|fuel IH]; intros more scanner r; cbn [scanner_loop Nat.add];
    [discriminate|].
  destruct (scanner_is_at_end scanner); [auto|].
  destruct (scanner_scan_token (set_start scanner)); [apply IH | auto].
Qed.

(** X9: the scanner reads a buffer up to its first NUL or line feed and no
    further: whatever follows the line, a closing line feed included, the
    tokens or the failure are those of the line alone, and so is the result
    of the program. *)
Theorem rest_of_buffer_is_ignored (line tail : list ascii) :
  Forall (fun c => is_terminator c = false) line ->
  is_terminator (hd NUL tail) = true ->
  scanner_execute (scanner_init (line ++ tail)) = scanner_execute (scanner_init line) /\
  process_source (line ++ tail) = process_source line.
Proof.
  intros Hplain Htail.
  assert (Hscan : scanner_execute (scanner_init (line ++ tail))
                  = scanner_execute (scanner_init line)).
  { unfold scanner_execute.
    set (f1 := S (List.length (unread (scanner_init (line ++ tail))))).
    set (f2 := S (List.length (unread (scanner_init line)))).
    destruct (@scanner_loop_ends f1 (scanner_init (line ++ tail))
                (scanner_init_inv _)) as (r1 & Hr1 & _).
    { unfold f1, unread. simpl. pose proof (line_length_le_length (line ++ tail)). lia. }
    destruct (@scanner_loop_ends f2 (scanner_init line)
                (scanner_init_inv _)) as (r2 & Hr2 & _).
    { unfold f2, unread. simpl. pose proof (line_length_le_length line). lia. }
    pose proof (scanner_loop_more_fuel f1 f2 _ Hr1) as Hm1.
    pose proof (scanner_loop_more_fuel f2 f1 _ Hr2) as Hm2.
    rewrite Nat.add_comm in Hm2.
    pose proof (@scanner_loop_before_end line tail Hplain Htail (f1 + f2)
                  (scanner_init (line ++ tail)) eq_refl (scanner_init_inv _)) as Hsim.
    change (retarget line (scanner_init (line ++ tail))) with (scanner_init line) in Hsim.
    rewrite Hm1, Hm2 in Hsim. rewrite Hr1, Hr2.
    destruct r1 as [s1|g1]; cbn [retarget_outcome] in Hsim;
      inversion Hsim; subst; reflexivity. }
  split; [exact Hscan|]. unfold process_source. rewrite Hscan. reflexivity.
Qed.

Lemma rest_of_buffer_is_ignored_witness :
  process_source (list_ascii_of_string "2 + 3 * 4" ++ [LF])
  = process_source (list_ascii_of_string "2 + 3 * 4").
Proof.
  apply (@rest_of_buffer_is_ignored (list_ascii_of_string "2 + 3 * 4") [LF]).
  - repeat constructor.
  - reflexivity.
Defined.

(** * Beyond the claims: the growth of the token list *)

Lemma add_item_well_sized (tl : Buffer.TokenList) (t : Token) :
  Buffer.well_sized tl ->
  Buffer.well_sized (Buffer.token_list_add_item tl t) /\
  Buffer.items (Buffer.token_list_add_item tl t)
    = token_list_add_item (Buffer.items tl) t.
Proof.
  intros [Hcount Hsize]. split; [|reflexivity].
  unfold Buffer.well_sized, Buffer.token_list_add_item.
  cbn [Buffer.items Buffer.count Buffer.capacity].
  split; [rewrite length_app; simpl; lia|]. right.
  destruct (Z.geb_spec (Buffer.count tl) (Buffer.capacity tl));
    destruct (Z.eqb_spec (Buffer.capacity tl) 0); lia.
Qed.

Lemma fold_add_well_sized (l : list Token) :
  forall tl : Buffer.TokenList,
  Buffer.well_sized tl ->
  Buffer.well_sized (fold_left Buffer.token_list_add_item l tl) /\
  Buffer.items (fold_left Buffer.token_list_add_item l tl) = Buffer.items tl ++ l.
Proof.
  induction l as [|t l IH]; intros tl Htl; simpl.
  - now rewrite app_nil_r.
  - destruct (add_item_well_sized t Htl) as [Hnext Hitems].
    destruct (IH _ Hnext) as [Hall Hlist]. split; [assumption|].
    rewrite Hlist, Hitems. unfold token_list_add_item.
    now rewrite <- app_assoc.
Qed.

(** X10: after any number of [token_list_add_item] from the empty list,
    the list holds the added tokens in the order they came, [count] is their
    number, and every write [items[count++]] found a free slot: [count] never
    passes [capacity].  The capacity is zero before the first token and at
    most the larger of ten and [2 * count - 2] afterwards, so it stays in the
    range of [int] for up to 2^30 tokens. *)
Theorem token_list_growth (l : list Token) :
  Buffer.items (Buffer.filled l) = l /\
  Buffer.count (Buffer.filled l) = Z.of_nat (List.length l) /\
  Buffer.count (Buffer.filled l) <= Buffer.capacity (Buffer.filled l) /\
  (l = [] -> Buffer.capacity (Buffer.filled l) = 0) /\
  (l <> [] ->
   Buffer.capacity (Buffer.filled l)
     <= Z.max 10 (2 * Buffer.count (Buffer.filled l) - 2)) /\
  (Z.of_nat (List.length l) <= 2 ^ 30 ->
   Buffer.capacity (Buffer.filled l) < 2 ^ 31).
Proof.
  destruct (@fold_add_well_sized l Buffer.token_list_init) as [[Hcount Hsize] Hitems].
  { split; [reflexivity | left; split; reflexivity]. }
  fold (Buffer.filled l) in *. simpl in Hitems.
  rewrite Hitems in Hcount.
  assert (Hne : l <> [] -> 1 <= Buffer.count (Buffer.filled l)).
  { destruct l; [contradiction | simpl in Hcount; lia]. }
  split; [exact Hitems|]. split; [exact Hcount|].
  split; [lia|]. split; [intros ->; reflexivity|].
  split; [intros Hl; specialize (Hne Hl); lia|].
  intros Hfew. rewrite <- Hcount in Hfew.
  change (2 ^ 30) with 1073741824 in Hfew.
  change (2 ^ 31) with 2147483648. lia.
Qed.

Lemma token_list_growth_witness :
  Buffer.count
    (Buffer.filled (repeat
       {| type := TOKEN_PLUS; literal := unset_literal; start_at := 0; end_at := 0 |} 11))
    <= Buffer.capacity
         (Buffer.filled (repeat
       {| type := TOKEN_PLUS; literal := unset_literal; start_at := 0; end_at := 0 |} 11)) /\
  Buffer.capacity
    (Buffer.filled (repeat
       {| type := TOKEN_PLUS; literal := unset_literal; start_at := 0; end_at := 0 |} 11)) = 20.
Proof.
  split; [|reflexivity].
  exact (proj1 (proj2 (proj2 (token_list_growth (repeat
       {| type := TOKEN_PLUS; literal := unset_literal; start_at := 0; end_at := 0 |} 11))))).
Defined.



